(** * FutureForms core: Key, FieldProperties and FormsModule

    A shallow embedding of three classes of the FutureForms core library
    - [model/relations/Key.ts]
    - [public/FieldProperties.ts]
    - [application/FormsModule.ts]
    together with the properties their specification states about them.

    The classes are written in TypeScript and run on a JavaScript heap:
    objects are references, arrays are mutated in place, calling a method
    on [null] throws a [TypeError], and failures of the library itself are
    reported through [Alert.fatal] instead of being thrown.  The embedding
    keeps all of that explicit: a world with a heap of objects, the static
    fields of the classes and a trace of the calls made to collaborators,
    threaded through a state-and-exception monad. *)

From stdpp Require Import base option list strings gmap fin_maps.
From Stdlib Require Import Ascii.

Local Open Scope string_scope.
Local Open Scope list_scope.
Local Open Scope nat_scope.

(** ** JavaScript values used by the three classes *)

(** What the classes use of the JavaScript runtime:
    [String.prototype.toLowerCase].  It is a built-in, not code of the
    library, and the embedding takes it as given: every definition that
    calls it, and every theorem about one, is stated for any runtime. *)
Class Runtime := { toLowerCase : string → string }.

(** [toLowerCase] on ASCII strings, where it maps ['A'..'Z'] to ['a'..'z']
    and keeps every other character; the runtime of the examples. *)
Definition lower_ascii (c : ascii) : ascii :=
  let n := N_of_ascii c in
  if (65 <=? n)%N && (n <=? 90)%N then ascii_of_N (n + 32) else c.

Fixpoint ascii_toLowerCase (s : string) : string :=
  match s with
  | EmptyString => EmptyString
  | String c r => String (lower_ascii c) (ascii_toLowerCase r)
  end.

(** A reference to an object of the heap. *)
Definition loc := positive.

(** A value of static type [string]: the compiler runs without strict
    null checks (the classes initialise [string] fields with [null]), so
    [null] inhabits the type.  [None] stands for [null] and [undefined],
    which the source never tells apart (it only tests [== null]). *)
Definition jsstring := option string.

(** [Class<any>]: a constructor function.  It is compared by reference
    and carries the [name] of the class. *)
Record Class := { class_ref : positive; class_name : string }.

#[global] Instance Class_eq_dec : EqDecision Class.
Proof. solve_decision. Defined.

(** Tokens for declarations of the library that the three classes only
    pass around: [DataType], [DataMapper] (or the class or name given for
    one) and [HTMLElement]. *)
Inductive DataType := DataTypeTok (n : nat).
Inductive DataMapper := DataMapperTok (n : nat).
Inductive HTMLElement := HTMLElementTok (n : nat).

(** The values [setValidValues] accepts:
    [string[] | Set<any> | Map<any,any>], or [null]. *)
Inductive ValidValues :=
| ValuesNull
| ValuesArray (xs : list string)
| ValuesSet (xs : gset string)
| ValuesMap (m : gmap string string).

(** Modelled from the spec: [BasicProperties], the base class of
    [FieldProperties], is declared in [view/fields/BasicProperties.ts],
    which is not part of the sources at hand.  The specification calls it
    "a shared base properties record (tag, enabled, readonly, required,
    hidden, style map, class list, attribute map, value, valid-value set,
    data mapper)" whose data type and derived status are fixed when the
    field is created; each attribute is a property that is read and
    assigned as such. *)
Record BasicProperties := {
  tag : jsstring;
  type : DataType;
  enabled : bool;
  readonly : bool;
  derived : bool;
  required : bool;
  hidden : bool;
  styles : jsstring;
  classes : list string;
  attributes : gmap string string;
  value : jsstring;
  validValues : ValidValues;
  mapper : option DataMapper;
}.

(** The instance fields of a [FormsModule]: [root$] and [showurl$]. *)
Record FormsModuleFields := {
  root_ : option HTMLElement;
  showurl_ : bool;
}.

(** Heap objects: a [string[]], a [FieldProperties] and a [FormsModule]. *)
Inductive Obj :=
| OArray (elems : list jsstring)
| OProperties (p : BasicProperties)
| OFormsModule (m : FormsModuleFields).

(** Calls to collaborators whose code is elsewhere; the world records
    them in the order they are made. *)
Inductive Event :=
| AlertFatal (msg title : string)
| DatesValidate
| KeyMappingInit
| ApplicationHandlerInit.

#[global] Instance Event_eq_dec : EqDecision Event.
Proof. solve_decision. Defined.

(** ** The world *)

Record World := {
  heap : gmap loc Obj;
  (** [FormsModule.instance] *)
  instance : option loc;
  (** [Components.classmap] and [Components.classurl] *)
  classmap : gmap string Class;
  classurl : gmap string string;
  (** calls to collaborators, oldest first *)
  trace : list Event;
}.

Definition set_heap (f : gmap loc Obj → gmap loc Obj) (w : World) : World :=
  {| heap := f (heap w); instance := instance w; classmap := classmap w;
     classurl := classurl w; trace := trace w |}.

Definition set_instance (i : option loc) (w : World) : World :=
  {| heap := heap w; instance := i; classmap := classmap w;
     classurl := classurl w; trace := trace w |}.

Definition set_classmap (f : gmap string Class → gmap string Class)
    (w : World) : World :=
  {| heap := heap w; instance := instance w; classmap := f (classmap w);
     classurl := classurl w; trace := trace w |}.

Definition set_classurl (f : gmap string string → gmap string string)
    (w : World) : World :=
  {| heap := heap w; instance := instance w; classmap := classmap w;
     classurl := f (classurl w); trace := trace w |}.

Definition log (e : Event) (w : World) : World :=
  {| heap := heap w; instance := instance w; classmap := classmap w;
     classurl := classurl w; trace := trace w ++ [e] |}.

(** The world a page starts in: nothing allocated, no static set. *)
Definition world0 : World :=
  {| heap := ∅; instance := None; classmap := ∅; classurl := ∅; trace := [] |}.

(** That world after an array has been allocated: [["OrderId"]],
    [["OrderId", "CustomerId"]], [[]] and [["OrderId", null]]. *)
Definition world1 : World :=
  set_heap <[1%positive := OArray [Some "OrderId"]]> world0.

Definition world_orders : World :=
  set_heap <[1%positive := OArray [Some "OrderId"; Some "CustomerId"]]> world0.

Definition world_empty : World :=
  set_heap <[1%positive := OArray []]> world0.

Definition world_null : World :=
  set_heap <[1%positive := OArray [Some "OrderId"; None]]> world0.

(** ** The monad of method bodies *)

Inductive JSError := TypeError.

(** How a call ends: with a value, with a thrown exception, or [Stuck]
    when the model is asked something JavaScript cannot be asked (a
    reference that is not in the heap, an object of the wrong class, a
    loop that outlives its bound).  No theorem below ends in [Stuck]. *)
Inductive Completion (A : Type) :=
| Normal (a : A)
| Throw (e : JSError)
| Stuck.
Arguments Normal {A} a.
Arguments Throw {A} e.
Arguments Stuck {A}.

Definition M (A : Type) : Type := World → Completion A * World.

#[global] Instance M_ret : MRet M := λ A a w, (Normal a, w).

#[global] Instance M_bind : MBind M := λ A B f m w,
  match m w with
  | (Normal a, w') => f a w'
  | (Throw e, w') => (Throw e, w')
  | (Stuck, w') => (Stuck, w')
  end.

Definition throw {A} (e : JSError) : M A := λ w, (Throw e, w).
Definition stuck {A} : M A := λ w, (Stuck, w).
Definition gets {A} (f : World → A) : M A := λ w, (Normal (f w), w).
Definition modify (f : World → World) : M unit := λ w, (Normal tt, f w).

(** [new]: the object gets a reference no object has yet. *)
Definition alloc (o : Obj) : M loc := λ w,
  let l := fresh (dom (heap w)) in (Normal l, set_heap <[l := o]> w).

Definition store (l : loc) (o : Obj) : M unit := modify (set_heap <[l := o]>).

Definition read_array (l : loc) : M (list jsstring) := λ w,
  match heap w !! l with
  | Some (OArray a) => (Normal a, w)
  | _ => (Stuck, w)
  end.

Definition read_properties (l : loc) : M BasicProperties := λ w,
  match heap w !! l with
  | Some (OProperties p) => (Normal p, w)
  | _ => (Stuck, w)
  end.

(** [s.toLowerCase()] on a value of static type [string]. *)
Definition call_toLowerCase {RT : Runtime} (s : jsstring) : M string :=
  match s with
  | Some s => mret (toLowerCase s)
  | None => throw TypeError
  end.

(** The number of [Alert.fatal] calls in a trace. *)
Definition is_fatal (e : Event) : bool :=
  match e with AlertFatal _ _ => true | _ => false end.

Definition fatal_count (t : list Event) : nat := length (filter is_fatal t).

(** ** Alert *)
Module Alert.

(** Modelled from the spec: [Alert.fatal] is declared in
    [application/Alert.ts], which is not part of the sources at hand.
    The specification describes it as a channel "invoked with a
    two-argument signature: a human-readable message and a short
    component tag" that notifies and returns to its caller; here the call
    is recorded in the trace. *)
Definition fatal (msg title : string) : M unit :=
  modify (log (AlertFatal msg title)).

End Alert.

(** ** Key *)

(** Modelled from the spec: [Block] is declared in [model/Block.ts],
    which is not part of the sources at hand.  For a key it is "an object
    exposing a [name] property (a block handle)"; the name has static type
    [string]. *)
Record Block := { Block_name : jsstring }.

Module Key.

(** The non-null arguments of the constructor: [string|Block] and
    [string|string[]]; an array is passed by reference. *)
Inductive BlockArg := BlockString (s : string) | BlockObject (b : Block).
Inductive FieldsArg := FieldsString (s : string) | FieldsArray (l : loc).

(** The private fields [name$], [block$] and [fields$]. *)
Record t := {
  name_ : jsstring;
  block_ : jsstring;
  fields_ : option loc;
}.

(** The field initialisers: all three are [null]. *)
Definition initial : t := {| name_ := None; block_ := None; fields_ := None |}.

Definition set_block (b : jsstring) (k : t) : t :=
  {| name_ := name_ k; block_ := b; fields_ := fields_ k |}.

Definition set_fields (f : option loc) (k : t) : t :=
  {| name_ := name_ k; block_ := block_ k; fields_ := f |}.

(** The accessors [name], [block] and [fields]. *)
Definition name (k : t) : jsstring := name_ k.
Definition block (k : t) : jsstring := block_ k.
Definition fields (k : t) : option loc := fields_ k.

Section Constructor.
Context {RT : Runtime}.

(** [for (let i = 0; i < fields.length; i++)
       fields[i] = fields[i].toLowerCase();]
    from index [i] on.  The length is read again at every turn; [n]
    bounds the number of turns, and a read past the end gives
    [undefined] as it does in JavaScript. *)
Fixpoint lower_fields (n : nat) (fields : loc) (i : nat) : M unit :=
  a ← read_array fields;
  if decide (i < length a) then
    match n with
    | 0 => stuck
    | S n' =>
        s ← call_toLowerCase (default None (a !! i));
        store fields (OArray (<[i := Some s]> a));;
        lower_fields n' fields (S i)
    end
  else mret tt.

Definition constructor (block : option BlockArg) (fields : option FieldsArg)
    : M t :=
  let this := initial in
  match block with
  | None =>
      Alert.fatal "Invalid key definition, block: 'null'" "Key";;
      mret this
  | Some block =>
  match fields with
  | None =>
      Alert.fatal "Invalid key definition, fields: 'null'" "Key";;
      mret this
  | Some fields =>
      fields ← match fields with
               | FieldsArray l => mret l
               | FieldsString s => alloc (OArray [Some s])
               end;
      a ← read_array fields;
      if decide (length a = 0) then
        Alert.fatal "Invalid key definition, no fields" "Key";;
        mret this
      else
        let block := match block with
                     | BlockString s => Some s
                     | BlockObject b => Block_name b
                     end in
        block ← call_toLowerCase block;
        let this := set_block (Some block) this in
        let this := set_fields (Some fields) this in
        lower_fields (length a) fields 0;;
        mret this
  end
  end.

End Constructor.

(** What a reader of the key sees in world [w]: the three accessors, the
    array behind [fields] read through its reference. *)
Definition fields_of (w : World) (k : t) : option (list jsstring) :=
  l ← fields k;
  match heap w !! l with
  | Some (OArray a) => Some a
  | _ => None
  end.

Definition view (w : World) (k : t)
    : jsstring * jsstring * option (list jsstring) :=
  (name k, block k, fields_of w k).

(** Two constructions end the same way: both return, and the keys read
    the same, or both throw the same exception. *)
Definition same_result (r1 r2 : Completion t * World) : Prop :=
  match r1.1, r2.1 with
  | Normal k1, Normal k2 => view r1.2 k1 = view r2.2 k2
  | Throw e1, Throw e2 => e1 = e2
  | _, _ => False
  end.

(** The [fields] argument is [null], or an array without elements. *)
Definition no_fields (w : World) (fields : option FieldsArg) : Prop :=
  fields = None ∨
  ∃ l, fields = Some (FieldsArray l) ∧ heap w !! l = Some (OArray []).

(** The name the constructor lower-cases: the string itself, or the
    [name] of the block handle ([if (typeof block != "string")
    block = block.name]). *)
Definition block_name (block : BlockArg) : jsstring :=
  match block with
  | BlockString s => Some s
  | BlockObject b => Block_name b
  end.

(** The [fields] argument is one a caller can pass: [null], a string,
    or an array that is in the heap. *)
Definition fields_in_heap (w : World) (fields : option FieldsArg) : Prop :=
  match fields with
  | Some (FieldsArray l) => ∃ a, heap w !! l = Some (OArray a)
  | _ => True
  end.

(** Everything of the world but the object at [l] is the same in [w]
    and [w']. *)
Definition only_changes (l : loc) (w w' : World) : Prop :=
  (∀ l' : loc, l' ≠ l → heap w' !! l' = heap w !! l') ∧
  instance w' = instance w ∧
  classmap w' = classmap w ∧
  classurl w' = classurl w ∧
  trace w' = trace w.

End Key.

(** ** FieldProperties *)

(** [this.attr = v] for the attributes [FieldProperties] assigns. *)
Definition assign_tag (v : jsstring) (p : BasicProperties) : BasicProperties :=
  {| tag := v; type := type p; enabled := enabled p; readonly := readonly p;
     derived := derived p; required := required p; hidden := hidden p;
     styles := styles p; classes := classes p; attributes := attributes p;
     value := value p; validValues := validValues p; mapper := mapper p |}.

Definition assign_enabled (v : bool) (p : BasicProperties) : BasicProperties :=
  {| tag := tag p; type := type p; enabled := v; readonly := readonly p;
     derived := derived p; required := required p; hidden := hidden p;
     styles := styles p; classes := classes p; attributes := attributes p;
     value := value p; validValues := validValues p; mapper := mapper p |}.

Definition assign_readonly (v : bool) (p : BasicProperties) : BasicProperties :=
  {| tag := tag p; type := type p; enabled := enabled p; readonly := v;
     derived := derived p; required := required p; hidden := hidden p;
     styles := styles p; classes := classes p; attributes := attributes p;
     value := value p; validValues := validValues p; mapper := mapper p |}.

Definition assign_required (v : bool) (p : BasicProperties) : BasicProperties :=
  {| tag := tag p; type := type p; enabled := enabled p; readonly := readonly p;
     derived := derived p; required := v; hidden := hidden p;
     styles := styles p; classes := classes p; attributes := attributes p;
     value := value p; validValues := validValues p; mapper := mapper p |}.

Definition assign_hidden (v : bool) (p : BasicProperties) : BasicProperties :=
  {| tag := tag p; type := type p; enabled := enabled p; readonly := readonly p;
     derived := derived p; required := required p; hidden := v;
     styles := styles p; classes := classes p; attributes := attributes p;
     value := value p; validValues := validValues p; mapper := mapper p |}.

Definition assign_styles (v : jsstring) (p : BasicProperties) : BasicProperties :=
  {| tag := tag p; type := type p; enabled := enabled p; readonly := readonly p;
     derived := derived p; required := required p; hidden := hidden p;
     styles := v; classes := classes p; attributes := attributes p;
     value := value p; validValues := validValues p; mapper := mapper p |}.

Definition assign_value (v : jsstring) (p : BasicProperties) : BasicProperties :=
  {| tag := tag p; type := type p; enabled := enabled p; readonly := readonly p;
     derived := derived p; required := required p; hidden := hidden p;
     styles := styles p; classes := classes p; attributes := attributes p;
     value := v; validValues := validValues p; mapper := mapper p |}.

Definition assign_validValues (v : ValidValues) (p : BasicProperties)
    : BasicProperties :=
  {| tag := tag p; type := type p; enabled := enabled p; readonly := readonly p;
     derived := derived p; required := required p; hidden := hidden p;
     styles := styles p; classes := classes p; attributes := attributes p;
     value := value p; validValues := v; mapper := mapper p |}.

(** A field as an input element with nothing else set, and a world that
    holds it. *)
Definition properties0 : BasicProperties :=
  {| tag := Some "input"; type := DataTypeTok 0; enabled := true;
     readonly := false; derived := false; required := false; hidden := false;
     styles := None; classes := []; attributes := ∅; value := None;
     validValues := ValuesNull; mapper := None |}.

Definition world2 : World :=
  set_heap <[1%positive := OProperties properties0]> world0.

(** The part of [BasicProperties] that [FieldProperties] calls through
    [super]: the constructor, given by the attributes it leaves in a new
    object, and the methods the fluent setters delegate to.  Their code is
    in [view/fields/BasicProperties.ts]; a method is any action on the
    world. *)
Class BasicPropertiesSuper := {
  super_new : BasicProperties;
  super_setStyle : loc → string → string → M unit;
  super_removeStyle : loc → string → M unit;
  super_setClass : loc → string → M unit;
  super_setClasses : loc → string + list string → M unit;
  super_removeClass : loc → string → M unit;
  super_setAttribute : loc → string → jsstring → M unit;
  super_setAttributes : loc → gmap string string → M unit;
  super_removeAttribute : loc → string → M unit;
  super_setMapper : loc → DataMapper → M unit;
}.

Module FieldFeatureFactory.

(** Modelled from the spec: [FieldFeatureFactory.copyBasic] is declared
    in [view/FieldFeatureFactory.ts], which is not part of the sources at
    hand.  The specification has [clone()] "produce an independent copy by
    re-running the copy-constructor path", that is "a distinct instance
    whose attribute snapshot equals the source's, with no shared mutable
    backing state": every attribute of [exist] is copied into [props], the
    collections by value. *)
Definition copyBasic (exist props : loc) : M unit :=
  e ← read_properties exist;
  _ ← read_properties props;
  store props (OProperties
    {| tag := tag e; type := type e; enabled := enabled e;
       readonly := readonly e; derived := derived e; required := required e;
       hidden := hidden e; styles := styles e; classes := classes e;
       attributes := attributes e; value := value e;
       validValues := validValues e; mapper := mapper e |}).

End FieldFeatureFactory.

Module FieldProperties.
Section Methods.
Context {BP : BasicPropertiesSuper}.

Definition constructor (properties : option loc) : M loc :=
  this ← alloc (OProperties super_new);
  match properties with
  | Some properties => FieldFeatureFactory.copyBasic properties this
  | None => mret tt
  end;;
  mret this.

Definition clone (this : loc) : M loc := constructor (Some this).

(** [this.attr = v], the receiver being a [FieldProperties]. *)
Definition assign (this : loc) (f : BasicProperties → BasicProperties)
    : M unit :=
  p ← read_properties this;
  store this (OProperties (f p)).

Definition setTag (this : loc) (tag : jsstring) : M loc :=
  assign this (assign_tag tag);;
  mret this.

Definition setType (this : loc) (_type : DataType) : M loc :=
  Alert.fatal "Data type cannot be changed" "Properties";;
  mret this.

Definition setEnabled (this : loc) (flag : bool) : M loc :=
  assign this (assign_enabled flag);;
  mret this.

Definition setReadOnly (this : loc) (flag : bool) : M loc :=
  assign this (assign_readonly flag);;
  mret this.

Definition setDerived (this : loc) (_flag : bool) : M loc :=
  Alert.fatal "Derived cannot be changed" "Properties";;
  mret this.

Definition setRequired (this : loc) (flag : bool) : M loc :=
  assign this (assign_required flag);;
  mret this.

Definition setHidden (this : loc) (flag : bool) : M loc :=
  assign this (assign_hidden flag);;
  mret this.

Definition setStyle (this : loc) (style value : string) : M loc :=
  super_setStyle this style value;;
  mret this.

Definition setStyles (this : loc) (styles : jsstring) : M loc :=
  assign this (assign_styles styles);;
  mret this.

Definition removeStyle (this : loc) (style : string) : M loc :=
  super_removeStyle this style;;
  mret this.

Definition setClass (this : loc) (clazz : string) : M loc :=
  super_setClass this clazz;;
  mret this.

Definition setClasses (this : loc) (classes : string + list string) : M loc :=
  super_setClasses this classes;;
  mret this.

Definition removeClass (this : loc) (clazz : string) : M loc :=
  super_removeClass this clazz;;
  mret this.

Definition setAttribute (this : loc) (attr : string) (value : jsstring)
    : M loc :=
  super_setAttribute this attr value;;
  mret this.

Definition setAttributes (this : loc) (attrs : gmap string string) : M loc :=
  super_setAttributes this attrs;;
  mret this.

Definition removeAttribute (this : loc) (attr : string) : M loc :=
  super_removeAttribute this attr;;
  mret this.

Definition setValue (this : loc) (value : jsstring) : M loc :=
  assign this (assign_value value);;
  mret this.

Definition setValidValues (this : loc) (values : ValidValues) : M loc :=
  assign this (assign_validValues values);;
  mret this.

Definition setMapper (this : loc) (mapper : DataMapper) : M loc :=
  super_setMapper this mapper;;
  mret this.

End Methods.
End FieldProperties.

(** The attributes of a field, one by one, to speak of "the corresponding
    attribute" and of "every other attribute". *)
Inductive Attribute :=
| ATag | AType | AEnabled | AReadOnly | ADerived | ARequired | AHidden
| AStyles | AClasses | AAttributes | AValue | AValidValues | AMapper.

#[global] Instance Attribute_eq_dec : EqDecision Attribute.
Proof. solve_decision. Defined.

Inductive AttributeValue :=
| VString (s : jsstring)
| VBool (b : bool)
| VDataType (t : DataType)
| VClasses (cs : list string)
| VAttributes (m : gmap string string)
| VValidValues (vs : ValidValues)
| VMapper (m : option DataMapper).

Definition attribute (a : Attribute) (p : BasicProperties) : AttributeValue :=
  match a with
  | ATag => VString (tag p)
  | AType => VDataType (type p)
  | AEnabled => VBool (enabled p)
  | AReadOnly => VBool (readonly p)
  | ADerived => VBool (derived p)
  | ARequired => VBool (required p)
  | AHidden => VBool (hidden p)
  | AStyles => VString (styles p)
  | AClasses => VClasses (classes p)
  | AAttributes => VAttributes (attributes p)
  | AValue => VString (value p)
  | AValidValues => VValidValues (validValues p)
  | AMapper => VMapper (mapper p)
  end.

(** The attributes [clone()] is expected to carry over. *)
Definition snapshot_attributes : list Attribute :=
  [ATag; AEnabled; AReadOnly; ARequired; AHidden; AStyles; AClasses;
   AAttributes; AValue; AValidValues; AMapper].

Module Setter.

(** A call of one of the fluent setters that assign their argument to an
    attribute, and of one of the two that refuse to. *)
Inductive assigning :=
| SetTag (tag : jsstring)
| SetEnabled (flag : bool)
| SetReadOnly (flag : bool)
| SetRequired (flag : bool)
| SetHidden (flag : bool)
| SetStyles (styles : jsstring)
| SetValue (value : jsstring)
| SetValidValues (values : ValidValues).

Inductive refusing :=
| SetType (_type : DataType)
| SetDerived (_flag : bool).

Definition call (this : loc) (s : assigning) : M loc :=
  match s with
  | SetTag tag => FieldProperties.setTag this tag
  | SetEnabled flag => FieldProperties.setEnabled this flag
  | SetReadOnly flag => FieldProperties.setReadOnly this flag
  | SetRequired flag => FieldProperties.setRequired this flag
  | SetHidden flag => FieldProperties.setHidden this flag
  | SetStyles styles => FieldProperties.setStyles this styles
  | SetValue value => FieldProperties.setValue this value
  | SetValidValues values => FieldProperties.setValidValues this values
  end.

Definition call_refusing (this : loc) (s : refusing) : M loc :=
  match s with
  | SetType t => FieldProperties.setType this t
  | SetDerived flag => FieldProperties.setDerived this flag
  end.

(** The attribute a setter is named after, and the argument of the call
    as a value of that attribute. *)
Definition target (s : assigning) : Attribute :=
  match s with
  | SetTag _ => ATag
  | SetEnabled _ => AEnabled
  | SetReadOnly _ => AReadOnly
  | SetRequired _ => ARequired
  | SetHidden _ => AHidden
  | SetStyles _ => AStyles
  | SetValue _ => AValue
  | SetValidValues _ => AValidValues
  end.

Definition argument (s : assigning) : AttributeValue :=
  match s with
  | SetTag tag => VString tag
  | SetEnabled flag => VBool flag
  | SetReadOnly flag => VBool flag
  | SetRequired flag => VBool flag
  | SetHidden flag => VBool flag
  | SetStyles styles => VString styles
  | SetValue value => VString value
  | SetValidValues values => VValidValues values
  end.

(** Chained calls on one instance, [p.setTag(t).setHidden(h)...]: each
    call is made on what the call before it returned. *)
Fixpoint chain (this : loc) (ss : list assigning) : M loc :=
  match ss with
  | [] => mret this
  | s :: ss => this ← call this s; chain this ss
  end.

(** The instance after [this.attr = v], for the attribute and the
    argument of the call. *)
Definition written (s : assigning) (p : BasicProperties) : BasicProperties :=
  match s with
  | SetTag tag => assign_tag tag p
  | SetEnabled flag => assign_enabled flag p
  | SetReadOnly flag => assign_readonly flag p
  | SetRequired flag => assign_required flag p
  | SetHidden flag => assign_hidden flag p
  | SetStyles styles => assign_styles styles p
  | SetValue value => assign_value value p
  | SetValidValues values => assign_validValues values p
  end.

(** The value the last call of [ss] for the attribute [a] was given, if
    there is such a call. *)
Fixpoint last_assigned (a : Attribute) (ss : list assigning)
    : option AttributeValue :=
  match ss with
  | [] => None
  | s :: ss =>
      match last_assigned a ss with
      | Some v => Some v
      | None => if decide (target s = a) then Some (argument s) else None
      end
  end.

(** A call of any of the ten setters, and chains of them. *)
Inductive any :=
| Assigning (s : assigning)
| Refusing (s : refusing).

Definition call_any (this : loc) (s : any) : M loc :=
  match s with
  | Assigning s => call this s
  | Refusing s => call_refusing this s
  end.

Fixpoint chain_any (this : loc) (ss : list any) : M loc :=
  match ss with
  | [] => mret this
  | s :: ss => this ← call_any this s; chain_any this ss
  end.

Definition is_refusing (s : any) : bool :=
  match s with Refusing _ => true | Assigning _ => false end.

(** The number of calls of [setType] and [setDerived] in a chain. *)
Definition refusals (ss : list any) : nat := length (filter is_refusing ss).

End Setter.

(** ** FieldProperties: the setters that go through [super] *)

(** [this.attr = v] for the attributes those setters are about. *)
Definition assign_classes (v : list string) (p : BasicProperties)
    : BasicProperties :=
  {| tag := tag p; type := type p; enabled := enabled p; readonly := readonly p;
     derived := derived p; required := required p; hidden := hidden p;
     styles := styles p; classes := v; attributes := attributes p;
     value := value p; validValues := validValues p; mapper := mapper p |}.

Definition assign_attributes (v : gmap string string) (p : BasicProperties)
    : BasicProperties :=
  {| tag := tag p; type := type p; enabled := enabled p; readonly := readonly p;
     derived := derived p; required := required p; hidden := hidden p;
     styles := styles p; classes := classes p; attributes := v;
     value := value p; validValues := validValues p; mapper := mapper p |}.

Definition assign_mapper (v : option DataMapper) (p : BasicProperties)
    : BasicProperties :=
  {| tag := tag p; type := type p; enabled := enabled p; readonly := readonly p;
     derived := derived p; required := required p; hidden := hidden p;
     styles := styles p; classes := classes p; attributes := attributes p;
     value := value p; validValues := validValues p; mapper := v |}.

(** What the specification leaves open about [BasicProperties]: the
    attributes [super()] leaves in a new object, and the value that a
    method working on one style, one class or one named attribute gives
    the styles, the class list or the attribute map, from its arguments
    and the value before the call; likewise the class list that a single
    string given to [setClasses] stands for. *)
Class AttributeUpdates := {
  new_properties : BasicProperties;
  style_set : string → string → jsstring → jsstring;
  style_removed : string → jsstring → jsstring;
  class_added : string → list string → list string;
  classes_of : string → list string;
  class_removed : string → list string → list string;
  attribute_set :
    string → jsstring → gmap string string → gmap string string;
  attribute_removed : string → gmap string string → gmap string string;
}.

(** Modelled from the spec: the methods of [BasicProperties] that the
    setters of [FieldProperties] call through [super] are declared in
    [view/fields/BasicProperties.ts], which is not part of the sources at
    hand.  The specification describes the class as "a fluent mutator over
    a shared base properties record", of which "every other setter
    mutates one attribute": [setStyle] and [removeStyle] the styles,
    [setClass], [setClasses] and [removeClass] the class list,
    [setAttribute], [setAttributes] and [removeAttribute] the attribute
    map, [setMapper] the data mapper.  A setter given the whole of its
    attribute ([setClasses] with a list, [setAttributes], [setMapper])
    sets the attribute to it. *)
#[global] Instance BasicProperties_spec (U : AttributeUpdates)
    : BasicPropertiesSuper :=
  {| super_new := new_properties;
     super_setStyle := λ this style value,
       FieldProperties.assign this
         (λ p, assign_styles (style_set style value (styles p)) p);
     super_removeStyle := λ this style,
       FieldProperties.assign this
         (λ p, assign_styles (style_removed style (styles p)) p);
     super_setClass := λ this clazz,
       FieldProperties.assign this
         (λ p, assign_classes (class_added clazz (classes p)) p);
     super_setClasses := λ this classes,
       FieldProperties.assign this
         (assign_classes
            (match classes with inl s => classes_of s | inr l => l end));
     super_removeClass := λ this clazz,
       FieldProperties.assign this
         (λ p, assign_classes (class_removed clazz (classes p)) p);
     super_setAttribute := λ this attr value,
       FieldProperties.assign this
         (λ p, assign_attributes (attribute_set attr value (attributes p)) p);
     super_setAttributes := λ this attrs,
       FieldProperties.assign this (assign_attributes attrs);
     super_removeAttribute := λ this attr,
       FieldProperties.assign this
         (λ p, assign_attributes (attribute_removed attr (attributes p)) p);
     super_setMapper := λ this mapper,
       FieldProperties.assign this (assign_mapper (Some mapper)) |}.

(** One reading of what is left open, for examples: styles as CSS text,
    a class added at the end of the list, attributes in a map. *)
#[global] Instance updates0 : AttributeUpdates :=
  {| new_properties := properties0;
     style_set := λ style value s,
       Some (String.append (default "" s)
               (String.append style (String.append ":" (String.append value ";"))));
     style_removed := λ _ _, None;
     class_added := λ clazz cs, cs ++ [clazz];
     classes_of := λ s, [s];
     class_removed := λ clazz cs, filter (λ c, c ≠ clazz) cs;
     attribute_set := λ attr value m, <[attr := default "" value]> m;
     attribute_removed := λ attr m, delete attr m |}.

Module Fluent.

(** A call of one of the seventeen fluent setters that change an
    attribute: the eight that assign it themselves, and the nine that go
    through [super]. *)
Inductive call :=
| Assigning (s : Setter.assigning)
| SetStyle (style value : string)
| RemoveStyle (style : string)
| SetClass (clazz : string)
| SetClasses (classes : string + list string)
| RemoveClass (clazz : string)
| SetAttribute (attr : string) (value : jsstring)
| SetAttributes (attrs : gmap string string)
| RemoveAttribute (attr : string)
| SetMapper (mapper : DataMapper).

Section Run.
Context {BP : BasicPropertiesSuper}.

Definition run (this : loc) (c : call) : M loc :=
  match c with
  | Assigning s => Setter.call this s
  | SetStyle style value => FieldProperties.setStyle this style value
  | RemoveStyle style => FieldProperties.removeStyle this style
  | SetClass clazz => FieldProperties.setClass this clazz
  | SetClasses classes => FieldProperties.setClasses this classes
  | RemoveClass clazz => FieldProperties.removeClass this clazz
  | SetAttribute attr value => FieldProperties.setAttribute this attr value
  | SetAttributes attrs => FieldProperties.setAttributes this attrs
  | RemoveAttribute attr => FieldProperties.removeAttribute this attr
  | SetMapper mapper => FieldProperties.setMapper this mapper
  end.

End Run.

(** The attribute a setter is about. *)
Definition target (c : call) : Attribute :=
  match c with
  | Assigning s => Setter.target s
  | SetStyle _ _ | RemoveStyle _ => AStyles
  | SetClass _ | SetClasses _ | RemoveClass _ => AClasses
  | SetAttribute _ _ | SetAttributes _ | RemoveAttribute _ => AAttributes
  | SetMapper _ => AMapper
  end.

(** The argument of a setter that is given the whole of its attribute,
    as a value of that attribute. *)
Definition whole (c : call) : option AttributeValue :=
  match c with
  | Assigning s => Some (Setter.argument s)
  | SetClasses (inr classes) => Some (VClasses classes)
  | SetAttributes attrs => Some (VAttributes attrs)
  | SetMapper mapper => Some (VMapper (Some mapper))
  | _ => None
  end.

(** The value a call gives its attribute, on an instance that was [p]. *)
Definition result {U : AttributeUpdates} (c : call) (p : BasicProperties)
    : AttributeValue :=
  match c with
  | Assigning s => Setter.argument s
  | SetStyle style value => VString (style_set style value (styles p))
  | RemoveStyle style => VString (style_removed style (styles p))
  | SetClass clazz => VClasses (class_added clazz (classes p))
  | SetClasses (inl s) => VClasses (classes_of s)
  | SetClasses (inr classes) => VClasses classes
  | RemoveClass clazz => VClasses (class_removed clazz (classes p))
  | SetAttribute attr value =>
      VAttributes (attribute_set attr value (attributes p))
  | SetAttributes attrs => VAttributes attrs
  | RemoveAttribute attr =>
      VAttributes (attribute_removed attr (attributes p))
  | SetMapper mapper => VMapper (Some mapper)
  end.

End Fluent.

(** ** FieldProperties: the containers behind an instance *)

Module Backing.

(** The attributes that are containers or objects of their own, which
    JavaScript holds by reference. *)
Inductive Part := PStyles | PClasses | PAttributes | PValidValues | PMapper.

#[global] Instance Part_eq_dec : EqDecision Part.
Proof. solve_decision. Defined.

Definition parts : list Part :=
  [PStyles; PClasses; PAttributes; PValidValues; PMapper].

(** The value of a part in a snapshot of the attributes, and a snapshot
    with the value of a part put in. *)
Definition get (part : Part) (p : BasicProperties) : AttributeValue :=
  match part with
  | PStyles => VString (styles p)
  | PClasses => VClasses (classes p)
  | PAttributes => VAttributes (attributes p)
  | PValidValues => VValidValues (validValues p)
  | PMapper => VMapper (mapper p)
  end.

Definition put (part : Part) (v : AttributeValue) (p : BasicProperties)
    : BasicProperties :=
  match part, v with
  | PStyles, VString s => assign_styles s p
  | PClasses, VClasses cs => assign_classes cs p
  | PAttributes, VAttributes m => assign_attributes m p
  | PValidValues, VValidValues vs => assign_validValues vs p
  | PMapper, VMapper m => assign_mapper m p
  | _, _ => p
  end.

(** Modelled from the spec: the state behind a [BasicProperties], whose
    declaration is in [view/fields/BasicProperties.ts] and not part of the
    sources at hand.  The specification lists the attributes as "tag,
    enabled, readonly, required, hidden, style map, class list, attribute
    map, value, valid-value set, data mapper" and speaks of the "mutable
    backing state" of an instance.  An instance holds its plain attributes
    in [plain], of which the five fields of the parts are not read, and
    for each part a reference to the container that holds it; two
    instances may hold the same reference. *)
Record Instance := {
  plain : BasicProperties;
  refs : Part → loc;
}.

Record Store := {
  instances : gmap loc Instance;
  cells : gmap loc AttributeValue;
}.

Definition set_instances (f : gmap loc Instance → gmap loc Instance)
    (st : Store) : Store :=
  {| instances := f (instances st); cells := cells st |}.

Definition set_cells (f : gmap loc AttributeValue → gmap loc AttributeValue)
    (st : Store) : Store :=
  {| instances := instances st; cells := f (cells st) |}.

Definition set_plain (f : BasicProperties → BasicProperties) (i : Instance)
    : Instance :=
  {| plain := f (plain i); refs := refs i |}.

(** The instance with the reference of one part turned to [l]. *)
Definition point (part : Part) (l : loc) (i : Instance) : Instance :=
  {| plain := plain i;
     refs := λ q, if decide (q = part) then l else refs i q |}.

(** A new container that holds [v]. *)
Definition alloc (v : AttributeValue) (st : Store) : loc * Store :=
  let l := fresh (dom (cells st)) in (l, set_cells <[l := v]> st).

(** The attributes an instance shows: the plain ones, and each part read
    through its reference. *)
Fixpoint read_parts (ps : list Part) (i : Instance) (st : Store)
    (p : BasicProperties) : option BasicProperties :=
  match ps with
  | [] => Some p
  | part :: ps =>
      v ← cells st !! refs i part;
      read_parts ps i st (put part v p)
  end.

Definition snapshot (st : Store) (l : loc) : option BasicProperties :=
  i ← instances st !! l;
  read_parts parts i st (plain i).

(** Modelled from the spec: [super()], the constructor of
    [BasicProperties].  The new instance has the attributes [base] that
    the class gives a new object, each part in a container of its own. *)
Fixpoint init_parts (ps : list Part) (base : BasicProperties) (i : Instance)
    (st : Store) : Instance * Store :=
  match ps with
  | [] => (i, st)
  | part :: ps =>
      let (l, st) := alloc (get part base) st in
      init_parts ps base (point part l i) st
  end.

Definition super (base : BasicProperties) (st : Store) : loc * Store :=
  let this := fresh (dom (instances st)) in
  let (i, st) :=
    init_parts parts base {| plain := base; refs := λ _, 1%positive |} st in
  (this, set_instances <[this := i]> st).

(** Modelled from the spec: [FieldFeatureFactory.copyBasic], of
    [view/FieldFeatureFactory.ts], which is not part of the sources at
    hand.  It makes [props] "an independent copy" of [exist], "a distinct
    instance whose attribute snapshot equals the source's, with no shared
    mutable backing state": the plain attributes are copied, and each
    part is copied into a new container. *)
Fixpoint copy_parts (ps : list Part) (e i : Instance) (st : Store)
    : option (Instance * Store) :=
  match ps with
  | [] => Some (i, st)
  | part :: ps =>
      v ← cells st !! refs e part;
      let (l, st) := alloc v st in
      copy_parts ps e (point part l i) st
  end.

Definition copyBasic (exist props : loc) (st : Store) : option Store :=
  e ← instances st !! exist;
  i ← instances st !! props;
  r ← copy_parts parts e {| plain := plain e; refs := refs i |} st;
  Some (set_instances <[props := r.1]> r.2).

(** The constructor and [clone()] of [FieldProperties], over this store:
    [super()], then [copyBasic(properties, this)] unless [properties] is
    [null]; [clone()] is [new FieldProperties(this)]. *)
Definition constructor (base : BasicProperties) (properties : option loc)
    (st : Store) : option (loc * Store) :=
  let (this, st) := super base st in
  match properties with
  | Some properties =>
      st ← copyBasic properties this st;
      Some (this, st)
  | None => Some (this, st)
  end.

Definition clone (base : BasicProperties) (this : loc) (st : Store)
    : option (loc * Store) :=
  constructor base (Some this) st.

(** A change made through an instance, whichever method makes it: a plain
    attribute is assigned ([this.tag = tag]); a part is given a new
    container ([this.validValues = values]); the container of a part is
    changed where it is (a class pushed on the list, an entry set in the
    attribute map). *)
Inductive mutation :=
| SetPlain (f : BasicProperties → BasicProperties)
| Replace (part : Part) (v : AttributeValue)
| Update (part : Part) (f : AttributeValue → AttributeValue).

Definition mutate (this : loc) (m : mutation) (st : Store) : option Store :=
  i ← instances st !! this;
  match m with
  | SetPlain f => Some (set_instances <[this := set_plain f i]> st)
  | Replace part v =>
      let (l, st) := alloc v st in
      Some (set_instances <[this := point part l i]> st)
  | Update part f =>
      v ← cells st !! refs i part;
      Some (set_cells <[refs i part := f v]> st)
  end.

Fixpoint mutate_all (this : loc) (ms : list mutation) (st : Store)
    : option Store :=
  match ms with
  | [] => Some st
  | m :: ms => st ← mutate this m st; mutate_all this ms st
  end.

(** Two instances share backing state: some part of the one is held in
    the container that holds some part of the other. *)
Definition shares (st : Store) (a b : loc) : Prop :=
  ∃ (ia ib : Instance) (part part' : Part),
    instances st !! a = Some ia ∧ instances st !! b = Some ib ∧
    refs ia part = refs ib part'.

(** The instance [e] at [this] and its containers are in the store, and
    the instance at [c] holds containers of its own, none of them one of
    [e]. *)
Definition apart (st : Store) (c this : loc) (e : Instance) : Prop :=
  instances st !! this = Some e ∧
  (∀ part : Part, is_Some (cells st !! refs e part)) ∧
  ∃ ic : Instance,
    instances st !! c = Some ic ∧
    (∀ part part' : Part, refs ic part ≠ refs e part') ∧
    (∀ part : Part, is_Some (cells st !! refs ic part)).

(** A field that is a [div] with classes, an attribute, valid values and
    a mapper, each part in a container of its own; for examples. *)
Definition properties1 : BasicProperties :=
  {| tag := Some "div"; type := DataTypeTok 1; enabled := false;
     readonly := true; derived := true; required := true; hidden := true;
     styles := Some "color:red;"; classes := ["wide"; "bold"];
     attributes := <["size" := "10"]> ∅; value := Some "x";
     validValues := ValuesArray ["x"; "y"]; mapper := Some (DataMapperTok 4) |}.

Definition store1 : Store :=
  {| instances :=
       <[1%positive :=
           {| plain := properties1;
              refs := λ part,
                match part with
                | PStyles => 1%positive
                | PClasses => 2%positive
                | PAttributes => 3%positive
                | PValidValues => 4%positive
                | PMapper => 5%positive
                end |}]> ∅;
     cells :=
       <[1%positive := get PStyles properties1]>
         (<[2%positive := get PClasses properties1]>
            (<[3%positive := get PAttributes properties1]>
               (<[4%positive := get PValidValues properties1]>
                  (<[5%positive := get PMapper properties1]> ∅)))) |}.

End Backing.

(** ** FormsModule *)

(** The constructor starts with three calls into files that are not
    part of the sources at hand.  The specification names them its "fixed
    one-time initialization (date-handling validation, key-map
    initialization, global application-event-handler initialization)" and
    treats the callees as opaque collaborators. *)

Module dates.
(** Modelled from the spec: [dates.validate], of [model/dates/dates.ts],
    is the "date-handling validation"; the call is recorded in the trace
    and returns. *)
Definition validate : M unit := modify (log DatesValidate).
End dates.

Module KeyMapping.
(** Modelled from the spec: [KeyMapping.init], of
    [control/events/KeyMap.ts], is the "key-map initialization"; the call
    is recorded in the trace and returns. *)
Definition init : M unit := modify (log KeyMappingInit).
End KeyMapping.

Module ApplicationHandler.
(** Modelled from the spec: [ApplicationHandler.init], of
    [control/events/ApplicationHandler.ts], is the "global
    application-event-handler initialization"; the call is recorded in the
    trace and returns. *)
Definition init : M unit := modify (log ApplicationHandlerInit).
End ApplicationHandler.

(** Tokens for further declarations the module passes around: the
    [conn$] of a [DatabaseConnection], the [Map<any,any>] of form
    parameters and the [Promise<Form>] that [FormBacking.showform]
    returns. *)
Inductive Connection := ConnectionTok (n : nat).
Record DatabaseConnection := { conn_ : Connection }.
Inductive Parameters := ParametersTok (n : nat).
Inductive FormPromise := FormPromiseTok (n : nat).

(** What the methods below use of the page and of [FormBacking], none of
    it code of the three classes: [document.body]; the value of
    [new URLSearchParams(window.location.search).get("form")], [null]
    when the URL has no such parameter; the test
    [clazz.prototype instanceof Form]; and three static methods of
    [FormBacking], each of them any action on the world.
    [FormBacking.showform] is called with [null] for its second
    argument, which is left out here. *)
Class Environment := {
  document_body : HTMLElement;
  location_form : jsstring;
  extends_Form : Class → bool;
  FormBacking_getURLNavigable : string → M bool;
  FormBacking_showform :
    Class + string → option Parameters → option HTMLElement → M FormPromise;
  FormBacking_hasTransactions : Connection → M bool;
}.

(** What the call of an [async] method gives its caller: a promise, at
    once.  The promise adopts what the body returns and is rejected by
    what the body throws; the caller sees no exception. *)
Inductive Async (A : Type) :=
| Returned (a : A)
| Rejected (e : JSError).
Arguments Returned {A} a.
Arguments Rejected {A} e.

Definition async {A} (body : M A) : M (Async A) := λ w,
  match body w with
  | (Normal a, w') => (Normal (Returned a), w')
  | (Throw e, w') => (Normal (Rejected e), w')
  | (Stuck, w') => (Stuck, w')
  end.

(** [r.m] for a reference [r] that may be [null]. *)
Definition deref (r : option loc) : M loc :=
  match r with
  | Some l => mret l
  | None => throw TypeError
  end.

Definition read_module (l : loc) : M FormsModuleFields := λ w,
  match heap w !! l with
  | Some (OFormsModule m) => (Normal m, w)
  | _ => (Stuck, w)
  end.

(** [toLowerCase] gives strings it leaves as they are. *)
Definition lower_idempotent {RT : Runtime} : Prop :=
  ∀ s : string, toLowerCase (toLowerCase s) = toLowerCase s.

Module FormsModule.

(** [new FormsModule()]: the field initialisers, then the body of the
    constructor. *)
Definition constructor : M loc :=
  this ← alloc (OFormsModule {| root_ := None; showurl_ := true |});
  dates.validate;;
  KeyMapping.init;;
  ApplicationHandler.init;;
  modify (set_instance (Some this));;
  mret this.

Definition get : M (option loc) :=
  i ← gets instance;
  match i with
  | None => this ← constructor; modify (set_instance (Some this))
  | Some _ => mret tt
  end;;
  gets instance.

Section Components.
Context {RT : Runtime}.

Definition mapComponent (this : loc) (clazz : option Class) (path : jsstring)
    : M unit :=
  match clazz with
  | None => mret tt
  | Some clazz =>
      let path := match path with
                  | None => class_name clazz
                  | Some path => path
                  end in
      let path := toLowerCase path in
      modify (set_classmap <[path := clazz]>);;
      modify (set_classurl <[toLowerCase (class_name clazz) := path]>)
  end.

Definition getFormPath (clazz : option (Class + string)) : M jsstring :=
  match clazz with
  | None => mret None
  | Some clazz =>
      let clazz := match clazz with
                   | inl c => class_name c
                   | inr s => s
                   end in
      gets (λ w, classurl w !! toLowerCase clazz)
  end.

Definition getComponent (this : loc) (path : jsstring) : M (option Class) :=
  path ← call_toLowerCase path;
  gets (λ w, classmap w !! path).

(** Two paths are equal up to letter case. *)
Definition same_path (p q : string) : Prop := toLowerCase p = toLowerCase q.

End Components.

(** A process, as far as the singleton is concerned: a sequence of calls
    of [FormsModule.get()] and of the constructor, which is public. *)
Inductive call := Get | New.

Definition exec (c : call) : M (option loc) :=
  match c with
  | Get => get
  | New => this ← constructor; mret (Some this)
  end.

Fixpoint run (cs : list call) : M (list (option loc)) :=
  match cs with
  | [] => mret []
  | c :: cs => r ← exec c; rs ← run cs; mret (r :: rs)
  end.

(** The instances [FormsModule.get()] returned, in a run of [cs] that
    returned [rs]. *)
Fixpoint got (cs : list call) (rs : list (option loc)) : list (option loc) :=
  match cs, rs with
  | Get :: cs, r :: rs => r :: got cs rs
  | New :: cs, _ :: rs => got cs rs
  | _, _ => []
  end.

(** The calls the constructor makes to initialise the library. *)
Definition initialisation : list Event :=
  [DatesValidate; KeyMappingInit; ApplicationHandlerInit].

(** How often a collaborator was called. *)
Definition calls (e : Event) (t : list Event) : nat :=
  length (filter (λ x, x = e) t).

(** The singleton property of a process [cs] started in [w]: every call
    of [FormsModule.get()] returns one and the same instance, and each
    step of the initialisation is run exactly once. *)
Definition singleton (w : World) (cs : list call) : Prop :=
  ∃ (l : loc) (rs : list (option loc)) (w' : World),
    run cs w = (Normal rs, w') ∧
    Forall (eq (Some l)) (got cs rs) ∧
    Forall (λ e, calls e (trace w') = S (calls e (trace w))) initialisation.

(** The accessors of [showurl]. *)
Definition showurl (this : loc) : M bool :=
  m ← read_module this;
  mret (showurl_ m).

Definition set_showurl (this : loc) (flag : bool) : M unit :=
  m ← read_module this;
  store this (OFormsModule {| root_ := root_ m; showurl_ := flag |}).

Definition setRootElement (this : loc) (root : option HTMLElement) : M unit :=
  m ← read_module this;
  store this (OFormsModule {| root_ := root; showurl_ := showurl_ m |}).

Section Environment.
Context {RT : Runtime} {EV : Environment}.

Definition getRootElement (this : loc) : M HTMLElement :=
  m ← read_module this;
  match root_ m with
  | None => mret document_body
  | Some root => mret root
  end.

Definition hasTransactions (this : loc)
    (connection : option DatabaseConnection) : M bool :=
  match connection with
  | None => throw TypeError
  | Some connection => FormBacking_hasTransactions (conn_ connection)
  end.

Definition showform (this : loc) (form : Class + string)
    (parameters : option Parameters) (container : option HTMLElement)
    : M (Async FormPromise) :=
  async (FormBacking_showform form parameters container).

Definition OpenURLForm (this : loc) : M bool :=
  match location_form with
  | Some form =>
      clazz ← getComponent this (Some form);
      navigable ← FormBacking_getURLNavigable form;
      if negb navigable then mret false
      else
        match clazz with
        | Some clazz =>
            if extends_Form clazz then
              showform this (inl clazz) None None;;
              mret true
            else mret false
        | None => mret false
        end
  | None => mret false
  end.

(** A sequence of calls of [mapComponent]. *)
Fixpoint map_all (this : loc) (calls : list (option Class * jsstring))
    : M unit :=
  match calls with
  | [] => mret tt
  | (clazz, path) :: calls => mapComponent this clazz path;; map_all this calls
  end.

(** Every path [Components.classurl] holds is in lower case and is a key
    of [Components.classmap]. *)
Definition registry_ok (w : World) : Prop :=
  ∀ name path : string,
    classurl w !! name = Some path →
    toLowerCase path = path ∧ is_Some (classmap w !! path).

End Environment.

(** How often the constructor runs in a process, started with or without
    an instance: once for each [new FormsModule()] and once for a
    [FormsModule.get()] made while there is no instance. *)
Fixpoint constructions (has : bool) (cs : list call) : nat :=
  match cs with
  | [] => 0
  | New :: cs => S (constructions true cs)
  | Get :: cs =>
      if has then constructions true cs else S (constructions true cs)
  end.

Definition has_instance (w : World) : bool :=
  match instance w with Some _ => true | None => false end.

(** [FormsModule.instance], when set, refers to a [FormsModule]. *)
Definition instance_ok (w : World) : Prop :=
  ∀ l : loc, instance w = Some l →
    ∃ m : FormsModuleFields, heap w !! l = Some (OFormsModule m).

End FormsModule.

(** The runtime of the examples. *)
#[global] Instance ascii_runtime : Runtime :=
  {| toLowerCase := ascii_toLowerCase |}.

(** The page of the examples: the URL asks for the form [ORDERS/list],
    every class is a form, every form may be opened from the URL, and
    [FormBacking] answers without touching the world. *)
#[global] Instance environment0 : Environment :=
  {| document_body := HTMLElementTok 0;
     location_form := Some "ORDERS/list";
     extends_Form := λ _, true;
     FormBacking_getURLNavigable := λ _, mret true;
     FormBacking_showform := λ _ _ _, mret (FormPromiseTok 0);
     FormBacking_hasTransactions := λ _, mret false |}.

(** * Properties *)

(** ** The monad *)

Lemma bind_normal {A B} (m : M A) (f : A → M B) (w w' : World) (a : A) :
  m w = (Normal a, w') → (m ≫= f) w = f a w'.
Proof. intros E. unfold mbind, M_bind. by rewrite E. Qed.

Lemma set_heap_id (w : World) (f : gmap loc Obj → gmap loc Obj) :
  f (heap w) = heap w → set_heap f w = w.
Proof. destruct w; unfold set_heap; simpl; intros ->; done. Qed.

Lemma set_heap_twice (w : World) (l : loc) (o o' : Obj) :
  set_heap <[l := o']> (set_heap <[l := o]> w) = set_heap <[l := o']> w.
Proof. unfold set_heap; simpl. by rewrite insert_insert_eq. Qed.

Lemma read_array_heap (w : World) (l : loc) (a : list jsstring) :
  heap w !! l = Some (OArray a) → read_array l w = (Normal a, w).
Proof. intros E. unfold read_array. by rewrite E. Qed.

(** ** Key *)

(** The loop, entered at index [length done] with only strings left to
    visit, lower-cases each of them in place and ends. *)
Lemma lower_fields_strings {RT : Runtime} (todo : list string) :
  ∀ (done : list jsstring) (w : World) (n : nat) (l : loc),
    heap w !! l = Some (OArray (done ++ (Some <$> todo))) →
    length todo ≤ n →
    Key.lower_fields n l (length done) w =
      (Normal tt,
       set_heap <[l := OArray (done ++ (Some <$> (toLowerCase <$> todo)))]> w).
Proof.
  induction todo as [|x todo IH]; intros done w n l Hl Hn.
  - destruct n; simpl;
      rewrite (bind_normal _ _ _ _ _ (read_array_heap _ _ _ Hl));
      rewrite decide_False by (rewrite length_app, length_fmap; simpl; lia);
      (rewrite set_heap_id; [done | by apply insert_id]).
  - destruct n as [|n]; [simpl in Hn; lia|]. rewrite fmap_cons in Hl. simpl.
    rewrite (bind_normal _ _ _ _ _ (read_array_heap _ _ _ Hl)).
    rewrite decide_True by (rewrite length_app; simpl; lia).
    rewrite list_lookup_middle by done. simpl.
    unfold mbind at 1, M_bind, mret, M_ret. simpl.
    unfold mbind at 1, M_bind, store, modify. simpl.
    replace (<[length done := Some (toLowerCase x)]> (done ++ Some x :: (Some <$> todo)))
      with ((done ++ [Some (toLowerCase x)]) ++ (Some <$> todo)).
    2:{ rewrite <- app_assoc. simpl. symmetry.
        rewrite <- (Nat.add_0_r (length done)) at 1.
        by rewrite insert_app_r. }
    replace (S (length done)) with (length (done ++ [Some (toLowerCase x)]))
      by (rewrite length_app; simpl; lia).
    rewrite IH.
    + rewrite set_heap_twice. by rewrite <- app_assoc.
    + simpl. by rewrite lookup_insert_eq.
    + simpl in Hn. lia.
Qed.

Lemma constructor_null_block {RT : Runtime}
    (fields : option Key.FieldsArg) (w : World) :
  Key.constructor None fields w =
    (Normal Key.initial,
     log (AlertFatal "Invalid key definition, block: 'null'" "Key") w).
Proof. reflexivity. Qed.

Lemma constructor_null_fields {RT : Runtime}
    (block : Key.BlockArg) (w : World) :
  Key.constructor (Some block) None w =
    (Normal Key.initial,
     log (AlertFatal "Invalid key definition, fields: 'null'" "Key") w).
Proof. reflexivity. Qed.

Lemma constructor_empty_fields {RT : Runtime}
    (block : Key.BlockArg) (l : loc) (w : World) :
  heap w !! l = Some (OArray []) →
  Key.constructor (Some block) (Some (Key.FieldsArray l)) w =
    (Normal Key.initial,
     log (AlertFatal "Invalid key definition, no fields" "Key") w).
Proof.
  intros Hl. unfold Key.constructor.
  rewrite (bind_normal _ _ w w l) by reflexivity.
  by rewrite (bind_normal _ _ _ _ _ (read_array_heap _ _ _ Hl)).
Qed.

(** Past the three checks: the block name is lower-cased and stored, the
    array is stored, and the loop runs over it. *)
Lemma constructor_checked {RT : Runtime}
    (s : string) (l : loc) (a : list jsstring)
    (w : World) :
  heap w !! l = Some (OArray a) → a ≠ [] →
  Key.constructor (Some (Key.BlockString s)) (Some (Key.FieldsArray l)) w =
    (Key.lower_fields (length a) l 0 ;;
     mret {| Key.name_ := None; Key.block_ := Some (toLowerCase s);
             Key.fields_ := Some l |}) w.
Proof.
  intros Hl Ha. unfold Key.constructor.
  rewrite (bind_normal _ _ w w l) by reflexivity.
  rewrite (bind_normal _ _ _ _ _ (read_array_heap _ _ _ Hl)).
  rewrite decide_False by (by destruct a).
  reflexivity.
Qed.

(** C1.  Given the name [B] of a block and a non-empty array [F] of field
    names, all of them strings, [new Key(B, F)] returns without an alert a
    key whose [block] is [B] in lower case, whose [fields] is the array it
    was given, now holding the names of [F] in lower case and in the same
    order, and whose [name] is [null]. *)
Theorem Key_constructor_lower_cases {RT : Runtime}
    (w : World) (B : string) (l : loc)
    (F : list string) :
  heap w !! l = Some (OArray (Some <$> F)) → F ≠ [] →
  ∃ (k : Key.t) (w' : World),
    Key.constructor (Some (Key.BlockString B)) (Some (Key.FieldsArray l)) w
      = (Normal k, w') ∧
    Key.block k = Some (toLowerCase B) ∧
    Key.fields k = Some l ∧
    Key.fields_of w' k = Some (Some <$> (toLowerCase <$> F)) ∧
    Key.name k = None ∧
    trace w' = trace w.
Proof.
  intros Hl HF.
  eexists _, _. split.
  - rewrite (constructor_checked _ _ _ _ Hl) by (by destruct F).
    rewrite length_fmap.
    rewrite (bind_normal _ _ _ _ _
      (lower_fields_strings F [] w (length F) l Hl (le_n _))).
    reflexivity.
  - repeat split. unfold Key.fields_of. simpl. by rewrite lookup_insert_eq.
Qed.

Lemma Key_constructor_lower_cases_witness :
  heap world_orders !! 1%positive
    = Some (OArray (Some <$> ["OrderId"; "CustomerId"])) ∧
  ["OrderId"; "CustomerId"] ≠ [] ∧
  ∃ (k : Key.t) (w' : World),
    Key.constructor (Some (Key.BlockString "Orders"))
      (Some (Key.FieldsArray 1%positive)) world_orders
      = (Normal k, w') ∧
    Key.block k = Some "orders" ∧
    Key.fields k = Some 1%positive ∧
    Key.fields_of w' k = Some [Some "orderid"; Some "customerid"] ∧
    Key.name k = None ∧
    trace w' = [].
Proof.
  assert (H1 : heap world_orders !! 1%positive
               = Some (OArray (Some <$> ["OrderId"; "CustomerId"])))
    by reflexivity.
  assert (H2 : ["OrderId"; "CustomerId"] ≠ []) by discriminate.
  split; [exact H1|]. split; [exact H2|].
  exact (Key_constructor_lower_cases world_orders "Orders" 1%positive
           ["OrderId"; "CustomerId"] H1 H2).
Defined.

Lemma fatal_count_log (t : list Event) (msg title : string) :
  fatal_count (t ++ [AlertFatal msg title]) = S (fatal_count t).
Proof.
  unfold fatal_count. rewrite filter_app, length_app. simpl. lia.
Qed.

(** C2, as stated, fails on the empty string: it is not [null], so the
    constructor stores it as the block name and raises no alert. *)
Lemma Key_constructor_empty_block_accepted :
  toLowerCase "" = "" ∧
  (Key.constructor (Some (Key.BlockString "")) (Some (Key.FieldsString "id"))
     world0).1
    = Normal {| Key.name_ := None; Key.block_ := Some "";
                Key.fields_ := Some 1%positive |} ∧
  fatal_count
    (trace (Key.constructor (Some (Key.BlockString ""))
              (Some (Key.FieldsString "id")) world0).2) = 0.
Proof. vm_compute. done. Qed.

(** C2, amended.  A [null] block argument is a fatal construction error:
    whatever the fields argument, the constructor calls [Alert.fatal] with
    the message for a null block and the tag ["Key"], and returns; it does
    not throw. *)
Theorem Key_constructor_null_block_fatal {RT : Runtime}
    (fields : option Key.FieldsArg)
    (w : World) :
  ∃ (k : Key.t) (w' : World),
    Key.constructor None fields w = (Normal k, w') ∧
    trace w' =
      trace w ++ [AlertFatal "Invalid key definition, block: 'null'" "Key"] ∧
    fatal_count (trace w') = S (fatal_count (trace w)) ∧
    heap w' = heap w.
Proof.
  eexists _, _. split; [apply constructor_null_block|].
  simpl. by rewrite fatal_count_log.
Qed.

(** C3, as stated, fails on an array with a [null] element: no check
    looks at the elements, the loop calls [toLowerCase] on [null], and the
    [TypeError] leaves the constructor without any alert. *)
Lemma Key_constructor_null_element_throws :
  (Key.constructor (Some (Key.BlockString "Orders"))
     (Some (Key.FieldsArray 1%positive))
     world_null).1
    = Throw TypeError ∧
  fatal_count
    (trace (Key.constructor (Some (Key.BlockString "Orders"))
              (Some (Key.FieldsArray 1%positive))
              world_null).2)
    = 0.
Proof. vm_compute. done. Qed.

(** C3, amended.  A fields argument that is [null] or an array without
    elements is a fatal error: whatever the block argument, the
    constructor calls [Alert.fatal] once with the tag ["Key"] and returns;
    it does not throw. *)
Theorem Key_constructor_no_fields_fatal {RT : Runtime}
    (block : option Key.BlockArg)
    (fields : option Key.FieldsArg) (w : World) :
  Key.no_fields w fields →
  ∃ (k : Key.t) (msg : string),
    Key.constructor block fields w = (Normal k, log (AlertFatal msg "Key") w) ∧
    fatal_count (trace (log (AlertFatal msg "Key") w)) = S (fatal_count (trace w)).
Proof.
  intros Hf. destruct block as [block|].
  - destruct Hf as [-> | (l & -> & Hl)]; eexists _, _; (split; [|apply fatal_count_log]).
    + apply constructor_null_fields.
    + by apply constructor_empty_fields.
  - eexists _, _. split; [apply constructor_null_block | apply fatal_count_log].
Qed.

Lemma Key_constructor_no_fields_fatal_witness :
  Key.no_fields world_empty
    (Some (Key.FieldsArray 1%positive)) ∧
  ∃ (k : Key.t) (msg : string),
    Key.constructor (Some (Key.BlockString "Orders"))
      (Some (Key.FieldsArray 1%positive))
      world_empty
      = (Normal k,
         log (AlertFatal msg "Key") world_empty) ∧
    fatal_count
      (trace (log (AlertFatal msg "Key")
                world_empty)) = 1.
Proof.
  assert (H : Key.no_fields world_empty
                (Some (Key.FieldsArray 1%positive))).
  { right. exists 1%positive. split; reflexivity. }
  split; [exact H|].
  exact (Key_constructor_no_fields_fatal (Some (Key.BlockString "Orders")) _ _ H).
Defined.

(** C4.  When the block argument is [null], or the fields argument is
    [null] or an array without elements, the constructor calls
    [Alert.fatal] exactly once, does not throw, and returns a key whose
    [name], [block] and [fields] all read [null]. *)
Theorem Key_constructor_invalid {RT : Runtime} (block : option Key.BlockArg)
    (fields : option Key.FieldsArg) (w : World) :
  block = None ∨ Key.no_fields w fields →
  ∃ (k : Key.t) (w' : World) (msg : string),
    Key.constructor block fields w = (Normal k, w') ∧
    trace w' = trace w ++ [AlertFatal msg "Key"] ∧
    fatal_count (trace w') = S (fatal_count (trace w)) ∧
    Key.name k = None ∧ Key.block k = None ∧ Key.fields k = None.
Proof.
  intros H.
  assert (∃ msg, Key.constructor block fields w =
                   (Normal Key.initial, log (AlertFatal msg "Key") w))
    as [msg E].
  { destruct block as [block|].
    - destruct H as [|[-> | (l & -> & Hl)]]; [done| |]; eexists.
      + apply constructor_null_fields.
      + by apply constructor_empty_fields.
    - eexists. apply constructor_null_block. }
  exists Key.initial, (log (AlertFatal msg "Key") w), msg.
  split; [exact E|]. simpl. by rewrite fatal_count_log.
Qed.

Lemma Key_constructor_invalid_witness :
  (Some (Key.BlockString "Orders") = None ∨
   Key.no_fields world0 None) ∧
  ∃ (k : Key.t) (w' : World) (msg : string),
    Key.constructor (Some (Key.BlockString "Orders")) None world0
      = (Normal k, w') ∧
    trace w' = [AlertFatal msg "Key"] ∧
    fatal_count (trace w') = 1 ∧
    Key.name k = None ∧ Key.block k = None ∧ Key.fields k = None.
Proof.
  assert (H : Some (Key.BlockString "Orders") = None ∨ Key.no_fields world0 None).
  { right. left. reflexivity. }
  split; [exact H|].
  exact (Key_constructor_invalid (Some (Key.BlockString "Orders")) None world0 H).
Defined.

(** A single name is first wrapped in a new array; from there on the
    constructor runs as if it had been given that array. *)
Lemma constructor_wraps_string {RT : Runtime}
    (block : Key.BlockArg) (f : string)
    (w : World) :
  Key.constructor (Some block) (Some (Key.FieldsString f)) w =
  Key.constructor (Some block) (Some (Key.FieldsArray (fresh (dom (heap w)))))
    (set_heap <[fresh (dom (heap w)) := OArray [Some f]]> w).
Proof. reflexivity. Qed.

(** On the one-element array [[f]] the constructor ends as the name of
    the block lets it: it throws when the name is [null], and returns the
    key over the lower-cased array otherwise. *)
Lemma constructor_one_field {RT : Runtime}
    (block : Key.BlockArg) (f : string) (l : loc)
    (w : World) :
  heap w !! l = Some (OArray [Some f]) →
  Key.constructor (Some block) (Some (Key.FieldsArray l)) w =
    match (match block with
           | Key.BlockString s => Some s
           | Key.BlockObject b => Block_name b
           end) with
    | Some s =>
        (Normal {| Key.name_ := None; Key.block_ := Some (toLowerCase s);
                   Key.fields_ := Some l |},
         set_heap <[l := OArray [Some (toLowerCase f)]]> w)
    | None => (Throw TypeError, w)
    end.
Proof.
  intros Hl. unfold Key.constructor.
  rewrite (bind_normal _ _ w w l) by reflexivity.
  rewrite (bind_normal _ _ _ _ _ (read_array_heap _ _ _ Hl)).
  rewrite decide_False by done.
  destruct (match block with
            | Key.BlockString s => Some s
            | Key.BlockObject b => Block_name b
            end) as [s|]; [|reflexivity].
  rewrite (bind_normal _ _ w w (toLowerCase s)) by reflexivity.
  by rewrite (bind_normal _ _ _ _ _ (lower_fields_strings [f] [] w 1 l Hl (le_n 1))).
Qed.

(** C5.  [new Key(B, f)] with a single field name [f] ends as
    [new Key(B, [f])] does: with the same alerts, and either with keys that
    read the same [name], [block] and [fields], or with the same
    exception. *)
Theorem Key_constructor_single_field {RT : Runtime}
    (block : option Key.BlockArg)
    (f : string) (l : loc) (w : World) :
  heap w !! l = Some (OArray [Some f]) →
  Key.same_result
    (Key.constructor block (Some (Key.FieldsString f)) w)
    (Key.constructor block (Some (Key.FieldsArray l)) w) ∧
  trace (Key.constructor block (Some (Key.FieldsString f)) w).2 =
  trace (Key.constructor block (Some (Key.FieldsArray l)) w).2.
Proof.
  intros Hl. destruct block as [block|].
  - rewrite constructor_wraps_string.
    rewrite (constructor_one_field block f (fresh (dom (heap w))))
      by (simpl; apply lookup_insert_eq).
    rewrite (constructor_one_field block f l w Hl).
    destruct (match block with
              | Key.BlockString s => Some s
              | Key.BlockObject b => Block_name b
              end) as [s|]; [|done].
    split; [|done].
    unfold Key.same_result, Key.view, Key.fields_of. simpl.
    by rewrite !lookup_insert_eq.
  - rewrite !constructor_null_block. done.
Qed.

Lemma Key_constructor_single_field_witness :
  heap world1 !! 1%positive = Some (OArray [Some "OrderId"]) ∧
  Key.same_result
    (Key.constructor (Some (Key.BlockString "Orders"))
       (Some (Key.FieldsString "OrderId")) world1)
    (Key.constructor (Some (Key.BlockString "Orders"))
       (Some (Key.FieldsArray 1%positive)) world1) ∧
  trace (Key.constructor (Some (Key.BlockString "Orders"))
           (Some (Key.FieldsString "OrderId")) world1).2 =
  trace (Key.constructor (Some (Key.BlockString "Orders"))
           (Some (Key.FieldsArray 1%positive)) world1).2.
Proof.
  assert (H : heap world1 !! 1%positive = Some (OArray [Some "OrderId"]))
    by reflexivity.
  split; [exact H|].
  exact (Key_constructor_single_field (Some (Key.BlockString "Orders"))
           "OrderId" 1%positive world1 H).
Defined.

(** ** FieldProperties *)

Lemma read_properties_heap (w : World) (l : loc) (p : BasicProperties) :
  heap w !! l = Some (OProperties p) → read_properties l w = (Normal p, w).
Proof. intros E. unfold read_properties. by rewrite E. Qed.

Lemma assign_heap (this : loc) (f : BasicProperties → BasicProperties)
    (w : World) (p : BasicProperties) :
  heap w !! this = Some (OProperties p) →
  FieldProperties.assign this f w =
    (Normal tt, set_heap <[this := OProperties (f p)]> w).
Proof.
  intros E. unfold FieldProperties.assign.
  by rewrite (bind_normal _ _ _ _ _ (read_properties_heap _ _ _ E)).
Qed.

(** What an assigning setter does to its receiver: it returns it, and
    the receiver is the only object written, with the attribute of the
    setter changed to the argument and no other. *)
Lemma call_assigning (this : loc) (s : Setter.assigning) (w : World)
    (p : BasicProperties) :
  heap w !! this = Some (OProperties p) →
  ∃ p' : BasicProperties,
    Setter.call this s w =
      (Normal this, set_heap <[this := OProperties p']> w) ∧
    attribute (Setter.target s) p' = Setter.argument s ∧
    ∀ a : Attribute, a ≠ Setter.target s → attribute a p' = attribute a p.
Proof.
  intros E.
  destruct s; simpl;
    unfold FieldProperties.setTag, FieldProperties.setEnabled,
      FieldProperties.setReadOnly, FieldProperties.setRequired,
      FieldProperties.setHidden, FieldProperties.setStyles,
      FieldProperties.setValue, FieldProperties.setValidValues;
    rewrite (bind_normal _ _ _ _ _ (assign_heap _ _ _ _ E));
    (eexists; split; [reflexivity|]; split; [reflexivity|]);
    intros [] Ha; try reflexivity; by destruct Ha.
Qed.

Lemma call_refusing_alerts (this : loc) (s : Setter.refusing) (w : World) :
  ∃ msg : string,
    Setter.call_refusing this s w =
      (Normal this, log (AlertFatal msg "Properties") w).
Proof. destruct s; eexists; reflexivity. Qed.

(** C6.  On any instance, [setType] and [setDerived] call [Alert.fatal]
    (once, with the tag ["Properties"]) and return the instance; the heap
    is as it was, so the type, the derived flag and every other attribute
    of the instance are unchanged. *)
Theorem FieldProperties_setType_setDerived (this : loc) (s : Setter.refusing)
    (w : World) (p : BasicProperties) :
  heap w !! this = Some (OProperties p) →
  ∃ (w' : World) (msg : string) (p' : BasicProperties),
    Setter.call_refusing this s w = (Normal this, w') ∧
    trace w' = trace w ++ [AlertFatal msg "Properties"] ∧
    fatal_count (trace w') = S (fatal_count (trace w)) ∧
    heap w' = heap w ∧
    heap w' !! this = Some (OProperties p') ∧
    ∀ a : Attribute, attribute a p' = attribute a p.
Proof.
  intros E. destruct (call_refusing_alerts this s w) as [msg ->].
  exists (log (AlertFatal msg "Properties") w), msg, p. simpl.
  by rewrite fatal_count_log.
Qed.

Lemma FieldProperties_setType_setDerived_witness :
  heap world2 !! 1%positive
    = Some (OProperties properties0) ∧
  ∃ (w' : World) (msg : string) (p' : BasicProperties),
    Setter.call_refusing 1%positive (Setter.SetType (DataTypeTok 3))
      world2
      = (Normal 1%positive, w') ∧
    trace w' = [AlertFatal msg "Properties"] ∧
    fatal_count (trace w') = 1 ∧
    heap w' = heap world2 ∧
    heap w' !! 1%positive = Some (OProperties p') ∧
    ∀ a : Attribute, attribute a p' = attribute a properties0.
Proof.
  assert (H : heap world2
                !! 1%positive = Some (OProperties properties0)) by reflexivity.
  split; [exact H|].
  exact (FieldProperties_setType_setDerived 1%positive
           (Setter.SetType (DataTypeTok 3)) _ properties0 H).
Defined.

(** A setter that goes through [super]: the method assigns [f] of the
    instance, which changes the attribute [t] only. *)
Ltac through_super H f t :=
  let w' := fresh "w'" in
  let p' := fresh "p'" in
  destruct (H f t) as (w' & p' & ? & ? & ? & ? & ?);
  [ intros [] ?; try reflexivity; done
  | exists w', p';
    split; [done|]; split; [done|]; split; [done|]; split; [done|];
    split; [first [by intros ? [= <-] | by intros ? [=]]|done] ].

(** C7.  On any instance, each of the seventeen fluent setters other
    than [setType] and [setDerived] returns the instance it was called on
    and writes that instance only, without an alert; it changes the
    attribute it is about and leaves every other attribute as it was.  A
    setter that is given the whole of its attribute ([setTag],
    [setEnabled], [setReadOnly], [setRequired], [setHidden], [setStyles],
    [setValue], [setValidValues], [setClasses] with a list,
    [setAttributes], [setMapper]) sets it to its argument; one that works
    on a single style, class or named attribute gives the styles, the
    class list or the attribute map the value [BasicProperties] computes
    for it. *)
Theorem FieldProperties_fluent_setter_frame {U : AttributeUpdates}
    (this : loc) (c : Fluent.call) (w : World) (p : BasicProperties) :
  heap w !! this = Some (OProperties p) →
  ∃ (w' : World) (p' : BasicProperties),
    Fluent.run this c w = (Normal this, w') ∧
    heap w' = <[this := OProperties p']> (heap w) ∧
    trace w' = trace w ∧
    attribute (Fluent.target c) p' = Fluent.result c p ∧
    (∀ v : AttributeValue,
       Fluent.whole c = Some v → attribute (Fluent.target c) p' = v) ∧
    ∀ a : Attribute, a ≠ Fluent.target c → attribute a p' = attribute a p.
Proof.
  intros E.
  assert (Hsuper : ∀ (f : BasicProperties → BasicProperties) (t : Attribute),
    (∀ a, a ≠ t → attribute a (f p) = attribute a p) →
    ∃ w' p',
      (FieldProperties.assign this f ;; mret this) w = (Normal this, w') ∧
      heap w' = <[this := OProperties p']> (heap w) ∧
      trace w' = trace w ∧
      attribute t p' = attribute t (f p) ∧
      ∀ a, a ≠ t → attribute a p' = attribute a p).
  { intros f t Ha.
    exists (set_heap <[this := OProperties (f p)]> w), (f p).
    by rewrite (bind_normal _ _ _ _ _ (assign_heap _ _ _ _ E)). }
  destruct c as [s|style value|style|clazz|[s|classes]|clazz|attr value|attrs
                 |attr|mapper].
  - destruct (call_assigning this s w p E) as (p' & Hs & Ht & Ha).
    exists (set_heap <[this := OProperties p']> w), p'.
    split; [exact Hs|]. split; [done|]. split; [done|]. split; [exact Ht|].
    split; [|exact Ha]. by intros v [= <-].
  - through_super Hsuper
      (λ q, assign_styles (style_set style value (styles q)) q) AStyles.
  - through_super Hsuper
      (λ q, assign_styles (style_removed style (styles q)) q) AStyles.
  - through_super Hsuper
      (λ q, assign_classes (class_added clazz (classes q)) q) AClasses.
  - through_super Hsuper (assign_classes (classes_of s)) AClasses.
  - through_super Hsuper (assign_classes classes) AClasses.
  - through_super Hsuper
      (λ q, assign_classes (class_removed clazz (classes q)) q) AClasses.
  - through_super Hsuper
      (λ q, assign_attributes (attribute_set attr value (attributes q)) q)
      AAttributes.
  - through_super Hsuper (assign_attributes attrs) AAttributes.
  - through_super Hsuper
      (λ q, assign_attributes (attribute_removed attr (attributes q)) q)
      AAttributes.
  - through_super Hsuper (assign_mapper (Some mapper)) AMapper.
Qed.

Lemma FieldProperties_fluent_setter_frame_witness :
  heap world2 !! 1%positive = Some (OProperties properties0) ∧
  ∃ (w' : World) (p' : BasicProperties),
    Fluent.run 1%positive (Fluent.SetAttribute "size" (Some "10")) world2
      = (Normal 1%positive, w') ∧
    heap w' = <[1%positive := OProperties p']> (heap world2) ∧
    trace w' = [] ∧
    attribute AAttributes p' = VAttributes (<["size" := "10"]> ∅) ∧
    (∀ v : AttributeValue,
       Fluent.whole (Fluent.SetAttribute "size" (Some "10")) = Some v →
       attribute AAttributes p' = v) ∧
    ∀ a : Attribute, a ≠ AAttributes → attribute a p' = attribute a properties0.
Proof.
  assert (H : heap world2 !! 1%positive = Some (OProperties properties0))
    by reflexivity.
  split; [exact H|].
  exact (FieldProperties_fluent_setter_frame 1%positive
           (Fluent.SetAttribute "size" (Some "10")) world2 properties0 H).
Defined.


(** The setters that delegate to [super] return their receiver as well,
    after whatever the method of [BasicProperties] did. *)
Lemma delegate_returns_this (m : M unit) (this : loc) (w w' : World) :
  m w = (Normal tt, w') → (m ;; mret this) w = (Normal this, w').
Proof. intros E. by rewrite (bind_normal _ _ _ _ _ E). Qed.

Lemma FieldProperties_setStyle_returns_this {BP : BasicPropertiesSuper}
    (this : loc) (style value : string) (w w' : World) :
  super_setStyle this style value w = (Normal tt, w') →
  FieldProperties.setStyle this style value w = (Normal this, w').
Proof. apply delegate_returns_this. Qed.

(** Chained assigning setters write their receiver only. *)
Lemma chain_assigning (ss : list Setter.assigning) :
  ∀ (this : loc) (w : World) (p : BasicProperties),
    heap w !! this = Some (OProperties p) →
    ∃ p' : BasicProperties,
      Setter.chain this ss w =
        (Normal this, set_heap <[this := OProperties p']> w).
Proof.
  induction ss as [|s ss IH]; intros this w p E.
  - exists p. simpl. unfold mret, M_ret.
    rewrite set_heap_id; [done | by apply insert_id].
  - destruct (call_assigning this s w p E) as (p1 & Hs & _).
    destruct (IH this (set_heap <[this := OProperties p1]> w) p1) as [p2 Hc].
    { simpl. apply lookup_insert_eq. }
    exists p2. simpl. rewrite (bind_normal _ _ _ _ _ Hs), Hc.
    by rewrite set_heap_twice.
Qed.

Lemma clone_copies {BP : BasicPropertiesSuper} (this : loc) (w : World)
    (p : BasicProperties) :
  heap w !! this = Some (OProperties p) →
  FieldProperties.clone this w =
    (Normal (fresh (dom (heap w))),
     set_heap <[fresh (dom (heap w)) := OProperties p]> w).
Proof.
  intros E.
  assert (Hne : fresh (dom (heap w)) ≠ this).
  { intros Heq. apply (is_fresh (dom (heap w))). rewrite Heq.
    apply elem_of_dom. by eexists. }
  unfold FieldProperties.clone, FieldProperties.constructor.
  rewrite (bind_normal _ _ w _ (fresh (dom (heap w)))) by reflexivity.
  unfold FieldFeatureFactory.copyBasic.
  set (w1 := set_heap _ w).
  assert (E1 : heap w1 !! this = Some (OProperties p)).
  { subst w1. simpl. by rewrite lookup_insert_ne. }
  assert (E2 : heap w1 !! fresh (dom (heap w)) = Some (OProperties super_new)).
  { subst w1. simpl. by rewrite lookup_insert_eq. }
  rewrite (bind_normal _ _ w1 (set_heap <[fresh (dom (heap w)) := OProperties p]> w) tt);
    [reflexivity|].
  rewrite (bind_normal _ _ _ _ _ (read_properties_heap _ _ _ E1)).
  rewrite (bind_normal _ _ _ _ _ (read_properties_heap _ _ _ E2)).
  unfold store, modify. subst w1. rewrite set_heap_twice. by destruct p.
Qed.

(** *** The containers behind an instance *)

Lemma parts_all (part : Backing.Part) : part ∈ Backing.parts.
Proof.
  unfold Backing.parts. rewrite !elem_of_cons. destruct part; auto 6.
Qed.

Lemma parts_NoDup : NoDup Backing.parts.
Proof.
  unfold Backing.parts.
  repeat (apply NoDup_cons; split;
          [rewrite ?elem_of_cons, elem_of_nil; intuition discriminate|]).
  apply NoDup_nil_2.
Qed.

(** The parts read the same when their containers hold the same. *)
Lemma read_parts_ext (ps : list Backing.Part) :
  ∀ (i1 i2 : Backing.Instance) (st1 st2 : Backing.Store)
    (p : BasicProperties),
    (∀ part, part ∈ ps →
       Backing.cells st1 !! Backing.refs i1 part
         = Backing.cells st2 !! Backing.refs i2 part) →
    Backing.read_parts ps i1 st1 p = Backing.read_parts ps i2 st2 p.
Proof.
  induction ps as [|part ps IH]; intros i1 i2 st1 st2 p H; [done|].
  simpl. rewrite (H part) by set_solver.
  destruct (Backing.cells st2 !! Backing.refs i2 part) as [v|]; [|done].
  simpl. apply IH. intros q Hq. apply H. set_solver.
Qed.

Lemma read_parts_allocated (ps : list Backing.Part) :
  ∀ (i : Backing.Instance) (st : Backing.Store) (p q : BasicProperties),
    Backing.read_parts ps i st p = Some q →
    ∀ part, part ∈ ps → is_Some (Backing.cells st !! Backing.refs i part).
Proof.
  induction ps as [|a ps IH]; intros i st p q H part Hin; [set_solver|].
  simpl in H.
  destruct (Backing.cells st !! Backing.refs i a) as [v|] eqn:E; [|done].
  simpl in H. apply elem_of_cons in Hin as [->|Hin]; [by rewrite E|].
  by eapply IH.
Qed.

(** [super()] adds an instance's containers and leaves what there was. *)
Lemma init_parts_keeps (ps : list Backing.Part) :
  ∀ (base : BasicProperties) (i : Backing.Instance) (st : Backing.Store),
    Backing.instances (Backing.init_parts ps base i st).2
      = Backing.instances st ∧
    ∀ l, is_Some (Backing.cells st !! l) →
      Backing.cells (Backing.init_parts ps base i st).2 !! l
        = Backing.cells st !! l.
Proof.
  induction ps as [|part ps IH]; intros base i st; [done|].
  simpl.
  destruct (IH base
              (Backing.point part (fresh (dom (Backing.cells st))) i)
              (Backing.set_cells
                 <[fresh (dom (Backing.cells st)) := Backing.get part base]> st))
    as [Hi Hc].
  split; [exact Hi|].
  intros l Hl. rewrite Hc; simpl.
  - apply lookup_insert_ne. intros <-.
    apply (is_fresh (dom (Backing.cells st))). by apply elem_of_dom.
  - rewrite lookup_insert_ne; [done|]. intros <-.
    apply (is_fresh (dom (Backing.cells st))). by apply elem_of_dom.
Qed.

(** [copyBasic] gives each part a container that was not in the store,
    holding what the container of the source holds, and leaves what there
    was. *)
Lemma copy_parts_fresh (ps : list Backing.Part) :
  ∀ (e i : Backing.Instance) (st : Backing.Store),
    NoDup ps →
    (∀ part, part ∈ ps →
       is_Some (Backing.cells st !! Backing.refs e part)) →
    ∃ (i' : Backing.Instance) (st' : Backing.Store),
      Backing.copy_parts ps e i st = Some (i', st') ∧
      Backing.instances st' = Backing.instances st ∧
      Backing.plain i' = Backing.plain i ∧
      (∀ l, is_Some (Backing.cells st !! l) →
         Backing.cells st' !! l = Backing.cells st !! l) ∧
      (∀ part, part ∈ ps →
         Backing.cells st !! Backing.refs i' part = None ∧
         Backing.cells st' !! Backing.refs i' part
           = Backing.cells st !! Backing.refs e part) ∧
      (∀ part, part ∉ ps → Backing.refs i' part = Backing.refs i part).
Proof.
  induction ps as [|part ps IH]; intros e i st Hnd Hall.
  - exists i, st. split; [done|]. split; [done|]. split; [done|].
    split; [done|]. split; [|done]. intros part Hin. by apply elem_of_nil in Hin.
  - apply NoDup_cons in Hnd as [Hnotin Hnd].
    destruct (Hall part ltac:(apply elem_of_cons; by left)) as [v Hv].
    set (l := fresh (dom (Backing.cells st))).
    assert (Hl : Backing.cells st !! l = None)
      by apply not_elem_of_dom, is_fresh.
    assert (Hold : ∀ l', is_Some (Backing.cells st !! l') → l ≠ l').
    { intros l' [x Hx] <-. congruence. }
    destruct (IH e (Backing.point part l i)
                (Backing.set_cells <[l := v]> st) Hnd)
      as (i' & st' & Hc & Hi & Hp & Hkeep & Hnew & Hrest).
    { intros q Hq.
      assert (Hq' : q ∈ part :: ps) by (apply elem_of_cons; by right).
      simpl. rewrite lookup_insert_ne; [by apply Hall|].
      by apply Hold, Hall. }
    exists i', st'. split; [by simpl; rewrite Hv|].
    split; [done|]. split; [done|]. split; [|split].
    + intros l' Hl'. rewrite Hkeep; simpl.
      * by rewrite lookup_insert_ne by by apply Hold.
      * by rewrite lookup_insert_ne by by apply Hold.
    + intros q Hq. apply elem_of_cons in Hq as [->|Hq].
      * rewrite (Hrest part Hnotin). simpl. rewrite decide_True by done.
        split; [done|]. rewrite Hkeep; simpl; rewrite lookup_insert_eq;
          [by rewrite Hv | by eexists].
      * destruct (Hnew q Hq) as [Hn Hc']. simpl in Hn, Hc'. split.
        -- destruct (decide (l = Backing.refs i' q)) as [<-|Hne]; [done|].
           by rewrite lookup_insert_ne in Hn.
        -- rewrite Hc'. apply lookup_insert_ne, Hold, Hall.
           apply elem_of_cons. by right.
    + intros q Hq. apply not_elem_of_cons in Hq as [Hne Hq].
      rewrite (Hrest q Hq). simpl. by rewrite decide_False.
Qed.

Lemma snapshot_at (st : Backing.Store) (l : loc) (i : Backing.Instance) :
  Backing.instances st !! l = Some i →
  Backing.snapshot st l
    = Backing.read_parts Backing.parts i st (Backing.plain i).
Proof. intros E. unfold Backing.snapshot. by rewrite E. Qed.

Lemma copyBasic_result (exist props : loc) (st : Backing.Store)
    (e i i' : Backing.Instance) (st2 : Backing.Store) :
  Backing.instances st !! exist = Some e →
  Backing.instances st !! props = Some i →
  Backing.copy_parts Backing.parts e
    {| Backing.plain := Backing.plain e; Backing.refs := Backing.refs i |} st
    = Some (i', st2) →
  Backing.copyBasic exist props st
    = Some (Backing.set_instances <[props := i']> st2).
Proof.
  intros He Hi Hc. unfold Backing.copyBasic.
  apply bind_Some. exists e. split; [exact He|].
  apply bind_Some. exists i. split; [exact Hi|].
  apply bind_Some. exists (i', st2). split; [exact Hc|reflexivity].
Qed.

(** [clone()]: the new instance is at a reference that was free, has the
    plain attributes of the source, and holds each part in a container
    that was not in the store, with what the container of the source
    holds; what there was is left. *)
Lemma clone_result (base : BasicProperties) (this : loc)
    (st : Backing.Store) (e : Backing.Instance) :
  Backing.instances st !! this = Some e →
  (∀ part, is_Some (Backing.cells st !! Backing.refs e part)) →
  ∃ (i' : Backing.Instance) (st' : Backing.Store),
    Backing.clone base this st
      = Some (fresh (dom (Backing.instances st)), st') ∧
    Backing.instances st'
      = <[fresh (dom (Backing.instances st)) := i']> (Backing.instances st) ∧
    Backing.plain i' = Backing.plain e ∧
    (∀ l, is_Some (Backing.cells st !! l) →
       Backing.cells st' !! l = Backing.cells st !! l) ∧
    ∀ part,
      Backing.cells st !! Backing.refs i' part = None ∧
      Backing.cells st' !! Backing.refs i' part
        = Backing.cells st !! Backing.refs e part.
Proof.
  intros He Hall.
  set (c := fresh (dom (Backing.instances st))).
  assert (Hc : c ≠ this).
  { intros Heq. apply (is_fresh (dom (Backing.instances st))).
    fold c. rewrite Heq. apply elem_of_dom. by eexists. }
  unfold Backing.clone, Backing.constructor, Backing.super. fold c.
  destruct (init_parts_keeps Backing.parts base
              {| Backing.plain := base; Backing.refs := λ _, 1%positive |} st)
    as [Hi0 Hc0].
  destruct (Backing.init_parts Backing.parts base
              {| Backing.plain := base; Backing.refs := λ _, 1%positive |} st)
    as [i0 st0]. simpl in Hi0, Hc0.
  destruct (copy_parts_fresh Backing.parts e
              {| Backing.plain := Backing.plain e;
                 Backing.refs := Backing.refs i0 |}
              (Backing.set_instances <[c := i0]> st0) parts_NoDup)
    as (i' & st2 & Hcopy & Hi2 & Hp & Hkeep & Hnew & _).
  { intros part _. simpl. rewrite Hc0; apply Hall. }
  exists i', (Backing.set_instances <[c := i']> st2).
  split; [|split; [|split; [|split]]].
  - rewrite (copyBasic_result this c _ e i0 i' st2); [done| | |done].
    + simpl. rewrite (lookup_insert_ne _ c this) by exact Hc.
      by rewrite Hi0.
    + simpl. apply lookup_insert_eq.
  - simpl. rewrite Hi2. simpl. by rewrite Hi0, insert_insert_eq.
  - done.
  - intros l Hl. simpl. rewrite Hkeep; simpl; [by apply Hc0|].
    by rewrite Hc0.
  - intros part. destruct (Hnew part (parts_all part)) as [Hn Hv].
    simpl in Hn, Hv. split.
    + destruct (Backing.cells st !! Backing.refs i' part) eqn:E; [|done].
      rewrite Hc0 in Hn by by rewrite E. congruence.
    + simpl. rewrite Hv. by apply Hc0.
Qed.

(** A change made through an instance that holds containers of its own
    leaves the other instance and its containers as they are, and leaves
    the two apart. *)
Lemma mutate_apart (c this : loc) (e : Backing.Instance)
    (m : Backing.mutation) (st : Backing.Store) :
  c ≠ this → Backing.apart st c this e →
  ∃ st' : Backing.Store,
    Backing.mutate c m st = Some st' ∧
    Backing.apart st' c this e ∧
    ∀ part, Backing.cells st' !! Backing.refs e part
              = Backing.cells st !! Backing.refs e part.
Proof.
  intros Hne (He & Hall & ic & Hic & Hdis & Hown).
  unfold Backing.mutate. rewrite Hic. simpl.
  destruct m as [f|part v|part f].
  - eexists. split; [done|]. split; [|done].
    split; [simpl; by rewrite lookup_insert_ne|]. split; [done|].
    exists (Backing.set_plain f ic).
    split; [simpl; by rewrite lookup_insert_eq|]. done.
  - set (l := fresh (dom (Backing.cells st))).
    assert (Hold : ∀ l', is_Some (Backing.cells st !! l') → l ≠ l').
    { intros l' [x Hx] <-.
      apply (is_fresh (dom (Backing.cells st))), elem_of_dom. by eexists. }
    eexists. split; [done|]. split; [|].
    + split; [simpl; by rewrite lookup_insert_ne|].
      split.
      { intros q. simpl. rewrite lookup_insert_ne; [done|]. by apply Hold. }
      exists (Backing.point part l ic).
      split; [simpl; by rewrite lookup_insert_eq|]. split.
      * intros q q'. simpl. destruct (decide (q = part)); [|done].
        by apply Hold.
      * intros q. simpl. destruct (decide (q = part)).
        -- rewrite lookup_insert_eq. by eexists.
        -- rewrite lookup_insert_ne; [done|]. by apply Hold.
    + intros q. simpl. apply lookup_insert_ne. by apply Hold.
  - destruct (Hown part) as [v Hv]. rewrite Hv. simpl.
    eexists. split; [done|]. split; [|].
    + split; [done|]. split.
      { intros q. simpl. by rewrite lookup_insert_ne. }
      exists ic. split; [done|]. split; [done|].
      intros q. simpl.
      destruct (decide (Backing.refs ic part = Backing.refs ic q)) as [<-|Hq].
      * rewrite lookup_insert_eq. by eexists.
      * by rewrite lookup_insert_ne.
    + intros q. simpl. by rewrite lookup_insert_ne.
Qed.

Lemma mutate_all_apart (c this : loc) (e : Backing.Instance)
    (ms : list Backing.mutation) :
  ∀ st : Backing.Store,
    c ≠ this → Backing.apart st c this e →
    ∃ st' : Backing.Store,
      Backing.mutate_all c ms st = Some st' ∧
      Backing.instances st' !! this = Some e ∧
      ∀ part, Backing.cells st' !! Backing.refs e part
                = Backing.cells st !! Backing.refs e part.
Proof.
  induction ms as [|m ms IH]; intros st Hne Hap.
  - exists st. split; [done|]. split; [apply Hap|done].
  - destruct (mutate_apart c this e m st Hne Hap) as (st1 & Hm & Hap1 & Hc1).
    destruct (IH st1 Hne Hap1) as (st' & Hms & Hi & Hc).
    exists st'. split; [simpl; by rewrite Hm|]. split; [done|].
    intros part. by rewrite Hc, Hc1.
Qed.

(** C8.  [p.clone()] returns an instance at a reference that was free,
    so distinct from [p], which shows the attributes [p] shows; [p] shows
    what it did.  The two share no backing state: no part of the clone is
    held in a container that holds a part of [p].  Whatever is changed
    through the clone afterwards (a plain attribute assigned, a part given
    a new container, the container of a part changed where it is), [p]
    shows what it did. *)
Theorem FieldProperties_clone_no_sharing (base : BasicProperties)
    (this : loc) (st : Backing.Store) (p : BasicProperties) :
  Backing.snapshot st this = Some p →
  ∃ (c : loc) (st' : Backing.Store),
    Backing.clone base this st = Some (c, st') ∧
    c ≠ this ∧ Backing.instances st !! c = None ∧
    Backing.snapshot st' c = Some p ∧
    Backing.snapshot st' this = Some p ∧
    ¬ Backing.shares st' c this ∧
    ∀ ms : list Backing.mutation,
      ∃ st'' : Backing.Store,
        Backing.mutate_all c ms st' = Some st'' ∧
        Backing.snapshot st'' this = Some p.
Proof.
  intros Hs.
  destruct (Backing.instances st !! this) as [e|] eqn:He;
    [|unfold Backing.snapshot in Hs; by rewrite He in Hs].
  rewrite (snapshot_at st this e He) in Hs.
  assert (Hall : ∀ part, is_Some (Backing.cells st !! Backing.refs e part)).
  { intros part. eapply read_parts_allocated; [exact Hs|apply parts_all]. }
  destruct (clone_result base this st e He Hall)
    as (i' & st' & Hclone & Hi & Hp & Hkeep & Hnew).
  set (c := fresh (dom (Backing.instances st))) in *.
  assert (Hfree : Backing.instances st !! c = None)
    by apply not_elem_of_dom, is_fresh.
  assert (Hc : c ≠ this) by congruence.
  assert (Hthis : Backing.instances st' !! this = Some e)
    by (by rewrite Hi, lookup_insert_ne).
  assert (Hclone_at : Backing.instances st' !! c = Some i')
    by (by rewrite Hi, lookup_insert_eq).
  assert (Hdis : ∀ part part', Backing.refs i' part ≠ Backing.refs e part').
  { intros part part' Heq. destruct (Hnew part) as [Hn _].
    destruct (Hall part') as [v Hv]. congruence. }
  assert (Hap : Backing.apart st' c this e).
  { split; [done|]. split.
    - intros part. rewrite Hkeep by done. apply Hall.
    - exists i'. split; [done|]. split; [done|].
      intros part. destruct (Hnew part) as [_ ->]. apply Hall. }
  exists c, st'. split; [done|]. split; [done|]. split; [done|].
  split; [|split; [|split]].
  - rewrite (snapshot_at st' c i' Hclone_at), Hp, <- Hs.
    apply read_parts_ext. intros part _. by destruct (Hnew part).
  - rewrite (snapshot_at st' this e Hthis), <- Hs.
    apply read_parts_ext. intros part _. by apply Hkeep.
  - intros (ia & ib & part & part' & Ha & Hb & Heq).
    rewrite Hclone_at in Ha. rewrite Hthis in Hb.
    injection Ha as <-. injection Hb as <-. by apply (Hdis part part').
  - intros ms.
    destruct (mutate_all_apart c this e ms st' Hc Hap) as (st'' & Hm & Hi'' & Hc'').
    exists st''. split; [done|].
    rewrite (snapshot_at st'' this e Hi''), <- Hs.
    apply read_parts_ext. intros part _. rewrite Hc''. by apply Hkeep.
Qed.

Lemma FieldProperties_clone_no_sharing_witness :
  Backing.snapshot Backing.store1 1%positive = Some Backing.properties1 ∧
  ∃ (c : loc) (st' : Backing.Store),
    Backing.clone properties0 1%positive Backing.store1 = Some (c, st') ∧
    c ≠ 1%positive ∧ Backing.instances Backing.store1 !! c = None ∧
    Backing.snapshot st' c = Some Backing.properties1 ∧
    Backing.snapshot st' 1%positive = Some Backing.properties1 ∧
    ¬ Backing.shares st' c 1%positive ∧
    ∀ ms : list Backing.mutation,
      ∃ st'' : Backing.Store,
        Backing.mutate_all c ms st' = Some st'' ∧
        Backing.snapshot st'' 1%positive = Some Backing.properties1.
Proof.
  assert (H : Backing.snapshot Backing.store1 1%positive
              = Some Backing.properties1) by reflexivity.
  split; [exact H|].
  exact (FieldProperties_clone_no_sharing properties0 1%positive
           Backing.store1 Backing.properties1 H).
Defined.

(** ** FormsModule *)

Lemma get_first (w : World) :
  instance w = None →
  ∃ w' : World,
    FormsModule.get w = (Normal (Some (fresh (dom (heap w)))), w') ∧
    instance w' = Some (fresh (dom (heap w))) ∧
    trace w' = trace w ++ FormsModule.initialisation.
Proof.
  intros E. unfold FormsModule.get.
  rewrite (bind_normal _ _ w w None) by (unfold gets; by rewrite E).
  eexists. split; [reflexivity|]. split; [reflexivity|].
  simpl. by rewrite <- !app_assoc.
Qed.

Lemma get_again (w : World) (l : loc) :
  instance w = Some l → FormsModule.get w = (Normal (Some l), w).
Proof.
  intros E. unfold FormsModule.get.
  rewrite (bind_normal _ _ w w (Some l)) by (unfold gets; by rewrite E).
  unfold mbind, M_bind, mret, M_ret, gets. by rewrite E.
Qed.

Lemma run_gets_again (n : nat) (w : World) (l : loc) :
  instance w = Some l →
  FormsModule.run (replicate n FormsModule.Get) w =
    (Normal (replicate n (Some l)), w).
Proof.
  intros E. induction n as [|n IH]; [done|]. simpl.
  rewrite (bind_normal _ _ _ _ _ (get_again w l E)).
  by rewrite (bind_normal _ _ _ _ _ IH).
Qed.

Lemma got_gets (n : nat) (r : option loc) :
  FormsModule.got (replicate n FormsModule.Get) (replicate n r) = replicate n r.
Proof. induction n as [|n IH]; [done|]. simpl. by rewrite IH. Qed.

Lemma calls_initialisation (t : list Event) :
  Forall (λ e, FormsModule.calls e (t ++ FormsModule.initialisation)
                 = S (FormsModule.calls e t))
    FormsModule.initialisation.
Proof.
  unfold FormsModule.calls, FormsModule.initialisation.
  repeat apply Forall_cons_2; [..|apply Forall_nil_2].
  all: rewrite filter_app, length_app; simpl; lia.
Qed.

(** C9, as stated, fails: the constructor is public and stores the new
    object in [FormsModule.instance] itself.  In the process
    [get(); new FormsModule(); get()] the two calls of [get()] return
    different instances, and the initialisation has run twice. *)
Lemma FormsModule_get_new_get :
  ¬ FormsModule.singleton world0
      [FormsModule.Get; FormsModule.New; FormsModule.Get] ∧
  (FormsModule.run [FormsModule.Get; FormsModule.New; FormsModule.Get] world0).1
    = Normal [Some 1%positive; Some 2%positive; Some 2%positive] ∧
  Forall
    (λ e, FormsModule.calls e
            (trace (FormsModule.run
                      [FormsModule.Get; FormsModule.New; FormsModule.Get]
                      world0).2) = 2)
    FormsModule.initialisation.
Proof.
  split; [|split].
  - intros (l & rs & w' & Hrun & Hgot & _).
    vm_compute in Hrun. injection Hrun as <- _.
    simpl in Hgot. inversion Hgot as [|? ? H1 Hrest]; subst.
    inversion Hrest as [|? ? H2 _]; subst. congruence.
  - vm_compute. reflexivity.
  - vm_compute. repeat constructor.
Qed.

(** C9, amended.  In a process that creates the module through
    [FormsModule.get()] only, and calls it at least once, every call
    returns the same instance and each step of the initialisation (date
    validation, key map, application handler) is run exactly once. *)
Theorem FormsModule_get_singleton (w : World) (cs : list FormsModule.call) :
  instance w = None → cs ≠ [] → Forall (eq FormsModule.Get) cs →
  FormsModule.singleton w cs.
Proof.
  intros E Hne Hcs.
  assert (Hrep : cs = replicate (length cs) FormsModule.Get).
  { clear Hne. induction Hcs as [|c cs <- _ IH]; [done|]. simpl. by f_equal. }
  destruct (length cs) as [|n]; [done|]. subst cs. clear Hne Hcs.
  destruct (get_first w E) as (w' & Hget & Hi & Ht).
  exists (fresh (dom (heap w))),
    (replicate (S n) (Some (fresh (dom (heap w))))), w'.
  split; [|split].
  - simpl. rewrite (bind_normal _ _ _ _ _ Hget).
    by rewrite (bind_normal _ _ _ _ _ (run_gets_again _ w' _ Hi)).
  - rewrite got_gets. by apply Forall_replicate.
  - rewrite Ht. apply calls_initialisation.
Qed.

Lemma FormsModule_get_singleton_witness :
  instance world0 = None ∧
  [FormsModule.Get; FormsModule.Get; FormsModule.Get] ≠ [] ∧
  Forall (eq FormsModule.Get) [FormsModule.Get; FormsModule.Get; FormsModule.Get] ∧
  FormsModule.singleton world0 [FormsModule.Get; FormsModule.Get; FormsModule.Get].
Proof.
  assert (H1 : instance world0 = None) by reflexivity.
  assert (H2 : [FormsModule.Get; FormsModule.Get; FormsModule.Get] ≠ [])
    by discriminate.
  assert (H3 : Forall (eq FormsModule.Get)
                 [FormsModule.Get; FormsModule.Get; FormsModule.Get])
    by (repeat constructor).
  split; [exact H1|]. split; [exact H2|]. split; [exact H3|].
  exact (FormsModule_get_singleton world0 _ H1 H2 H3).
Defined.

Lemma mapComponent_maps {RT : Runtime}
    (this : loc) (C : Class) (p : string) (w : World) :
  FormsModule.mapComponent this (Some C) (Some p) w =
    (Normal tt,
     set_classurl <[toLowerCase (class_name C) := toLowerCase p]>
       (set_classmap <[toLowerCase p := C]> w)).
Proof. reflexivity. Qed.

(** C10.  After [mapComponent(C, p)], [getComponent(q)] returns [C] for
    every [q] that is [p] up to letter case, and
    [FormsModule.getFormPath(C)] returns [p] in lower case.  Without a
    path, [mapComponent(C)] is [mapComponent(C, C.name)]; with a [null]
    class it returns at once and changes nothing. *)
Theorem FormsModule_mapComponent_round_trip {RT : Runtime}
    (this : loc) (C : Class)
    (p q : string) (w : World) :
  FormsModule.same_path p q →
  ∃ w' : World,
    FormsModule.mapComponent this (Some C) (Some p) w = (Normal tt, w') ∧
    FormsModule.getComponent this (Some q) w' = (Normal (Some C), w') ∧
    FormsModule.getFormPath (Some (inl C)) w'
      = (Normal (Some (toLowerCase p)), w') ∧
    FormsModule.mapComponent this (Some C) None w
      = FormsModule.mapComponent this (Some C) (Some (class_name C)) w ∧
    ∀ path : jsstring,
      FormsModule.mapComponent this None path w = (Normal tt, w).
Proof.
  intros Hpq. eexists. split; [apply mapComponent_maps|].
  split; [|split; [|split]].
  - unfold FormsModule.getComponent. simpl.
    unfold mbind, M_bind, mret, M_ret, gets. simpl.
    rewrite <- Hpq. by rewrite lookup_insert_eq.
  - unfold FormsModule.getFormPath, gets. simpl.
    by rewrite lookup_insert_eq.
  - reflexivity.
  - reflexivity.
Qed.

Lemma FormsModule_mapComponent_round_trip_witness :
  FormsModule.same_path "Orders/List" "ORDERS/list" ∧
  ∃ w' : World,
    FormsModule.mapComponent 1%positive
      (Some {| class_ref := 7; class_name := "OrderList" |})
      (Some "Orders/List") world0 = (Normal tt, w') ∧
    FormsModule.getComponent 1%positive (Some "ORDERS/list") w'
      = (Normal (Some {| class_ref := 7; class_name := "OrderList" |}), w') ∧
    FormsModule.getFormPath
      (Some (inl {| class_ref := 7; class_name := "OrderList" |})) w'
      = (Normal (Some "orders/list"), w') ∧
    FormsModule.mapComponent 1%positive
      (Some {| class_ref := 7; class_name := "OrderList" |}) None world0
      = FormsModule.mapComponent 1%positive
          (Some {| class_ref := 7; class_name := "OrderList" |})
          (Some "OrderList") world0 ∧
    ∀ path : jsstring,
      FormsModule.mapComponent 1%positive None path world0 = (Normal tt, world0).
Proof.
  assert (H : FormsModule.same_path "Orders/List" "ORDERS/list") by reflexivity.
  split; [exact H|].
  exact (FormsModule_mapComponent_round_trip 1%positive
           {| class_ref := 7; class_name := "OrderList" |}
           "Orders/List" "ORDERS/list" world0 H).
Defined.

(** * Further properties *)

(** ** Key: the paths the constructor can take *)

Lemma bind_throw_eq {A B} (m : M A) (f : A → M B) (w w' : World)
    (e : JSError) :
  m w = (Throw e, w') → (m ≫= f) w = (Throw e, w').
Proof. intros E. unfold mbind, M_bind. by rewrite E. Qed.

(** The loop, entered at index [length done] with strings to visit and
    then a [null], lower-cases the strings in place and throws at the
    [null]; what comes after it is not visited. *)
Lemma lower_fields_null {RT : Runtime} (pre : list string) :
  ∀ (done post : list jsstring) (w : World) (n : nat) (l : loc),
    heap w !! l = Some (OArray (done ++ (Some <$> pre) ++ None :: post)) →
    length pre < n →
    Key.lower_fields n l (length done) w =
      (Throw TypeError,
       set_heap
         <[l := OArray (done ++ (Some <$> (toLowerCase <$> pre)) ++ None :: post)]>
         w).
Proof.
  induction pre as [|x pre IH]; intros done post w n l Hl Hn.
  - destruct n as [|n]; [lia|]. simpl in *.
    rewrite (bind_normal _ _ _ _ _ (read_array_heap _ _ _ Hl)).
    rewrite decide_True by (rewrite length_app; simpl; lia).
    rewrite list_lookup_middle by done. simpl.
    unfold mbind, M_bind, throw.
    rewrite set_heap_id; [done | by apply insert_id].
  - destruct n as [|n]; [lia|]. rewrite fmap_cons in Hl. simpl in *.
    rewrite (bind_normal _ _ _ _ _ (read_array_heap _ _ _ Hl)).
    rewrite decide_True by (rewrite length_app; simpl; lia).
    rewrite list_lookup_middle by done. simpl.
    unfold mbind at 1, M_bind, mret, M_ret. simpl.
    unfold mbind at 1, M_bind, store, modify. simpl.
    replace (<[length done := Some (toLowerCase x)]>
               (done ++ Some x :: (Some <$> pre) ++ None :: post))
      with ((done ++ [Some (toLowerCase x)]) ++ (Some <$> pre) ++ None :: post).
    2:{ rewrite <- app_assoc. simpl. symmetry.
        rewrite <- (Nat.add_0_r (length done)) at 1.
        by rewrite insert_app_r. }
    replace (S (length done)) with (length (done ++ [Some (toLowerCase x)]))
      by (rewrite length_app; simpl; lia).
    rewrite (IH _ post _ n l).
    + rewrite set_heap_twice. by rewrite <- app_assoc.
    + simpl. by rewrite lookup_insert_eq.
    + lia.
Qed.

(** Past the three checks, for any block argument: the name of the block
    is lower-cased (a [TypeError] when it is [null]), then the array is
    stored and the loop runs over it. *)
Lemma constructor_past_checks {RT : Runtime} (block : Key.BlockArg) (l : loc)
    (a : list jsstring) (w : World) :
  heap w !! l = Some (OArray a) → a ≠ [] →
  Key.constructor (Some block) (Some (Key.FieldsArray l)) w =
    match Key.block_name block with
    | Some s =>
        (Key.lower_fields (length a) l 0 ;;
         mret {| Key.name_ := None; Key.block_ := Some (toLowerCase s);
                 Key.fields_ := Some l |}) w
    | None => (Throw TypeError, w)
    end.
Proof.
  intros Hl Ha. unfold Key.constructor, Key.block_name.
  rewrite (bind_normal _ _ w w l) by reflexivity.
  rewrite (bind_normal _ _ _ _ _ (read_array_heap _ _ _ Hl)).
  rewrite decide_False by (by destruct a).
  by destruct block as [s|[[s|]]].
Qed.

(** X1.  A block handle whose [name] is [null], given with an array that
    has elements, makes the constructor throw a [TypeError]: the name is
    lower-cased before anything is stored, so no alert is raised and the
    world, the array included, is left as it was. *)
Theorem Key_constructor_null_name_throws {RT : Runtime} (l : loc)
    (a : list jsstring) (w : World) :
  heap w !! l = Some (OArray a) → a ≠ [] →
  Key.constructor (Some (Key.BlockObject {| Block_name := None |}))
    (Some (Key.FieldsArray l)) w = (Throw TypeError, w).
Proof.
  intros Hl Ha. by rewrite (constructor_past_checks _ _ _ _ Hl Ha).
Qed.

Lemma Key_constructor_null_name_throws_witness :
  heap world_null !! 1%positive = Some (OArray [Some "OrderId"; None]) ∧
  [Some "OrderId"; None] ≠ [] ∧
  Key.constructor (Some (Key.BlockObject {| Block_name := None |}))
    (Some (Key.FieldsArray 1%positive)) world_null
    = (Throw TypeError, world_null).
Proof.
  assert (H1 : heap world_null !! 1%positive
               = Some (OArray [Some "OrderId"; None])) by reflexivity.
  assert (H2 : [Some "OrderId"; None] ≠ []) by discriminate.
  split; [exact H1|]. split; [exact H2|].
  exact (Key_constructor_null_name_throws 1%positive _ world_null H1 H2).
Defined.

Lemma constructor_null_element {RT : Runtime} (block : Key.BlockArg)
    (s : string) (l : loc) (pre : list string) (post : list jsstring)
    (w : World) :
  Key.block_name block = Some s →
  heap w !! l = Some (OArray ((Some <$> pre) ++ None :: post)) →
  Key.constructor (Some block) (Some (Key.FieldsArray l)) w =
    (Throw TypeError,
     set_heap
       <[l := OArray ((Some <$> (toLowerCase <$> pre)) ++ None :: post)]> w).
Proof.
  intros Hb Hl.
  rewrite (constructor_past_checks _ _ _ _ Hl) by (by destruct pre).
  rewrite Hb. apply bind_throw_eq.
  apply (lower_fields_null pre [] post w _ l Hl).
  rewrite length_app, length_fmap. simpl. lia.
Qed.



(** The constructor on an array of strings, for any block argument with
    a name. *)
Lemma constructor_strings {RT : Runtime} (block : Key.BlockArg) (s : string)
    (l : loc) (F : list string) (w : World) :
  Key.block_name block = Some s →
  heap w !! l = Some (OArray (Some <$> F)) → F ≠ [] →
  Key.constructor (Some block) (Some (Key.FieldsArray l)) w =
    (Normal {| Key.name_ := None; Key.block_ := Some (toLowerCase s);
               Key.fields_ := Some l |},
     set_heap <[l := OArray (Some <$> (toLowerCase <$> F))]> w).
Proof.
  intros Hb Hl HF.
  rewrite (constructor_past_checks _ _ _ _ Hl) by (by destruct F).
  rewrite Hb, length_fmap.
  by rewrite (bind_normal _ _ _ _ _
    (lower_fields_strings F [] w (length F) l Hl (le_n _))).
Qed.

(** X3.  A successful construction over an array writes that array and
    nothing else: it keeps its length, every other object of the heap, the
    statics and the trace are as before.  This holds for a block given by
    name as for one given by a handle with that name. *)
Theorem Key_constructor_frame {RT : Runtime} (block : Key.BlockArg)
    (s : string) (l : loc) (F : list string) (w : World) :
  Key.block_name block = Some s →
  heap w !! l = Some (OArray (Some <$> F)) → F ≠ [] →
  ∃ (k : Key.t) (w' : World) (a' : list jsstring),
    Key.constructor (Some block) (Some (Key.FieldsArray l)) w = (Normal k, w') ∧
    Key.block k = Some (toLowerCase s) ∧
    heap w' !! l = Some (OArray a') ∧ length a' = length F ∧
    Key.only_changes l w w'.
Proof.
  intros Hb Hl HF. eexists _, _, _.
  split; [by apply (constructor_strings block s l F)|].
  split; [done|]. split; [simpl; by rewrite lookup_insert_eq|].
  split; [by rewrite !length_fmap|].
  repeat split. intros l' Hne. simpl. by rewrite lookup_insert_ne.
Qed.

Lemma Key_constructor_frame_witness :
  Key.block_name (Key.BlockObject {| Block_name := Some "Orders" |})
    = Some "Orders" ∧
  heap world_orders !! 1%positive
    = Some (OArray (Some <$> ["OrderId"; "CustomerId"])) ∧
  ["OrderId"; "CustomerId"] ≠ [] ∧
  ∃ (k : Key.t) (w' : World) (a' : list jsstring),
    Key.constructor (Some (Key.BlockObject {| Block_name := Some "Orders" |}))
      (Some (Key.FieldsArray 1%positive)) world_orders = (Normal k, w') ∧
    Key.block k = Some "orders" ∧
    heap w' !! 1%positive = Some (OArray a') ∧ length a' = 2 ∧
    Key.only_changes 1%positive world_orders w'.
Proof.
  assert (H1 : Key.block_name (Key.BlockObject {| Block_name := Some "Orders" |})
               = Some "Orders") by reflexivity.
  assert (H2 : heap world_orders !! 1%positive
               = Some (OArray (Some <$> ["OrderId"; "CustomerId"])))
    by reflexivity.
  assert (H3 : ["OrderId"; "CustomerId"] ≠ []) by discriminate.
  split; [exact H1|]. split; [exact H2|]. split; [exact H3|].
  exact (Key_constructor_frame _ "Orders" 1%positive
           ["OrderId"; "CustomerId"] world_orders H1 H2 H3).
Defined.



(** X5.  Two keys constructed over the same array share it: both hold
    the one reference, and the second construction lower-cases again what
    the first key reads. *)
Theorem Key_constructor_shares_array {RT : Runtime} (b1 b2 : Key.BlockArg)
    (s1 s2 : string) (l : loc) (F : list string) (w : World) :
  Key.block_name b1 = Some s1 → Key.block_name b2 = Some s2 →
  heap w !! l = Some (OArray (Some <$> F)) → F ≠ [] →
  ∃ (k1 k2 : Key.t) (w' : World),
    (k1 ← Key.constructor (Some b1) (Some (Key.FieldsArray l));
     k2 ← Key.constructor (Some b2) (Some (Key.FieldsArray l));
     mret (k1, k2)) w = (Normal (k1, k2), w') ∧
    Key.fields k1 = Some l ∧ Key.fields k2 = Some l ∧
    Key.fields_of w' k1
      = Some (Some <$> (toLowerCase <$> (toLowerCase <$> F))) ∧
    Key.fields_of w' k2 = Key.fields_of w' k1.
Proof.
  intros H1 H2 Hl HF. eexists _, _, _. split.
  - rewrite (bind_normal _ _ _ _ _ (constructor_strings b1 s1 l F w H1 Hl HF)).
    assert (E2 := constructor_strings b2 s2 l (toLowerCase <$> F)
                    (set_heap <[l := OArray (Some <$> (toLowerCase <$> F))]> w)
                    H2).
    rewrite (bind_normal _ _ _ _ _ (E2 ltac:(simpl; apply lookup_insert_eq)
                                       ltac:(by destruct F))).
    reflexivity.
  - split; [done|]. split; [done|].
    unfold Key.fields_of. simpl. by rewrite !lookup_insert_eq.
Qed.

Lemma Key_constructor_shares_array_witness :
  Key.block_name (Key.BlockString "Orders") = Some "Orders" ∧
  Key.block_name (Key.BlockString "Invoices") = Some "Invoices" ∧
  heap world_orders !! 1%positive
    = Some (OArray (Some <$> ["OrderId"; "CustomerId"])) ∧
  ["OrderId"; "CustomerId"] ≠ [] ∧
  ∃ (k1 k2 : Key.t) (w' : World),
    (k1 ← Key.constructor (Some (Key.BlockString "Orders"))
            (Some (Key.FieldsArray 1%positive));
     k2 ← Key.constructor (Some (Key.BlockString "Invoices"))
            (Some (Key.FieldsArray 1%positive));
     mret (k1, k2)) world_orders = (Normal (k1, k2), w') ∧
    Key.fields k1 = Some 1%positive ∧ Key.fields k2 = Some 1%positive ∧
    Key.fields_of w' k1 = Some [Some "orderid"; Some "customerid"] ∧
    Key.fields_of w' k2 = Key.fields_of w' k1.
Proof.
  assert (H1 : Key.block_name (Key.BlockString "Orders") = Some "Orders")
    by reflexivity.
  assert (H2 : Key.block_name (Key.BlockString "Invoices") = Some "Invoices")
    by reflexivity.
  assert (H3 : heap world_orders !! 1%positive
               = Some (OArray (Some <$> ["OrderId"; "CustomerId"])))
    by reflexivity.
  assert (H4 : ["OrderId"; "CustomerId"] ≠ []) by discriminate.
  split; [exact H1|]. split; [exact H2|]. split; [exact H3|].
  split; [exact H4|].
  exact (Key_constructor_shares_array _ _ "Orders" "Invoices" 1%positive
           ["OrderId"; "CustomerId"] world_orders H1 H2 H3 H4).
Defined.

(** ** FieldProperties: chains of setters *)

Lemma call_written (this : loc) (s : Setter.assigning) (w : World)
    (p : BasicProperties) :
  heap w !! this = Some (OProperties p) →
  Setter.call this s w =
    (Normal this, set_heap <[this := OProperties (Setter.written s p)]> w).
Proof.
  intros E.
  destruct s; simpl;
    unfold FieldProperties.setTag, FieldProperties.setEnabled,
      FieldProperties.setReadOnly, FieldProperties.setRequired,
      FieldProperties.setHidden, FieldProperties.setStyles,
      FieldProperties.setValue, FieldProperties.setValidValues;
    by rewrite (bind_normal _ _ _ _ _ (assign_heap _ _ _ _ E)).
Qed.

Lemma written_attribute (s : Setter.assigning) (p : BasicProperties)
    (a : Attribute) :
  attribute a (Setter.written s p) =
    if decide (Setter.target s = a) then Setter.argument s else attribute a p.
Proof. by destruct s, a. Qed.

(** X6.  After a chain of assigning setters on an instance, each
    attribute holds the argument of the last call made for it, and its
    former value when the chain has no call for it; the chain returns the
    instance and writes no other object. *)
Theorem FieldProperties_chain_last_wins (ss : list Setter.assigning) :
  ∀ (this : loc) (w : World) (p : BasicProperties),
    heap w !! this = Some (OProperties p) →
    ∃ p' : BasicProperties,
      Setter.chain this ss w =
        (Normal this, set_heap <[this := OProperties p']> w) ∧
      ∀ a : Attribute,
        attribute a p' = default (attribute a p) (Setter.last_assigned a ss).
Proof.
  induction ss as [|s ss IH]; intros this w p E.
  - exists p. split; [|done]. simpl. unfold mret, M_ret.
    rewrite set_heap_id; [done | by apply insert_id].
  - destruct (IH this (set_heap <[this := OProperties (Setter.written s p)]> w)
                (Setter.written s p)) as (p' & Hc & Ha).
    { simpl. apply lookup_insert_eq. }
    exists p'. split.
    + simpl. rewrite (bind_normal _ _ _ _ _ (call_written this s w p E)), Hc.
      by rewrite set_heap_twice.
    + intros a. rewrite Ha. simpl.
      destruct (Setter.last_assigned a ss); [done|].
      rewrite written_attribute. by destruct (decide _).
Qed.

Lemma FieldProperties_chain_last_wins_witness :
  heap world2 !! 1%positive = Some (OProperties properties0) ∧
  ∃ p' : BasicProperties,
    Setter.chain 1%positive
      [Setter.SetHidden true; Setter.SetValue (Some "x"); Setter.SetHidden false]
      world2
      = (Normal 1%positive, set_heap <[1%positive := OProperties p']> world2) ∧
    ∀ a : Attribute,
      attribute a p' =
        default (attribute a properties0)
          (Setter.last_assigned a
             [Setter.SetHidden true; Setter.SetValue (Some "x");
              Setter.SetHidden false]).
Proof.
  assert (H : heap world2 !! 1%positive = Some (OProperties properties0))
    by reflexivity.
  split; [exact H|].
  exact (FieldProperties_chain_last_wins _ 1%positive world2 properties0 H).
Defined.

(** X7.  Two assigning setters for different attributes commute: called
    in either order on an instance they leave the same world. *)
Theorem FieldProperties_setters_commute (this : loc)
    (s1 s2 : Setter.assigning) (w : World) (p : BasicProperties) :
  heap w !! this = Some (OProperties p) →
  Setter.target s1 ≠ Setter.target s2 →
  Setter.chain this [s1; s2] w = Setter.chain this [s2; s1] w.
Proof.
  intros E Hne.
  assert (Hchain : ∀ a b,
    Setter.chain this [a; b] w =
      (Normal this,
       set_heap
         <[this := OProperties (Setter.written b (Setter.written a p))]> w)).
  { intros a b. simpl.
    rewrite (bind_normal _ _ _ _ _ (call_written this a w p E)).
    assert (Eb := call_written this b
                    (set_heap <[this := OProperties (Setter.written a p)]> w)
                    (Setter.written a p)).
    rewrite (bind_normal _ _ _ _ _ (Eb ltac:(simpl; apply lookup_insert_eq))).
    unfold mret, M_ret. by rewrite set_heap_twice. }
  rewrite !Hchain. do 3 f_equal.
  destruct s1, s2; try reflexivity; by destruct Hne.
Qed.

Lemma FieldProperties_setters_commute_witness :
  heap world2 !! 1%positive = Some (OProperties properties0) ∧
  Setter.target (Setter.SetTag (Some "div"))
    ≠ Setter.target (Setter.SetRequired true) ∧
  Setter.chain 1%positive
    [Setter.SetTag (Some "div"); Setter.SetRequired true] world2
  = Setter.chain 1%positive
      [Setter.SetRequired true; Setter.SetTag (Some "div")] world2.
Proof.
  assert (H1 : heap world2 !! 1%positive = Some (OProperties properties0))
    by reflexivity.
  assert (H2 : Setter.target (Setter.SetTag (Some "div"))
               ≠ Setter.target (Setter.SetRequired true)) by discriminate.
  split; [exact H1|]. split; [exact H2|].
  exact (FieldProperties_setters_commute 1%positive _ _ world2 properties0
           H1 H2).
Defined.

Lemma refusals_cons (s : Setter.any) (ss : list Setter.any) :
  Setter.refusals (s :: ss) =
    (if Setter.is_refusing s then 1 else 0) + Setter.refusals ss.
Proof. unfold Setter.refusals. rewrite filter_cons. by destruct s. Qed.

(** X8.  No chain of the ten setters changes the data type or the
    derived flag of the instance: the assigning ones write other
    attributes, and [setType] and [setDerived] write nothing.  The chain
    returns the instance, raises one alert for each call of [setType] or
    [setDerived] and no other, and writes no other object. *)
Theorem FieldProperties_type_derived_fixed (ss : list Setter.any) :
  ∀ (this : loc) (w : World) (p : BasicProperties),
    heap w !! this = Some (OProperties p) →
    ∃ (w' : World) (p' : BasicProperties),
      Setter.chain_any this ss w = (Normal this, w') ∧
      heap w' !! this = Some (OProperties p') ∧
      attribute AType p' = attribute AType p ∧
      attribute ADerived p' = attribute ADerived p ∧
      fatal_count (trace w') = fatal_count (trace w) + Setter.refusals ss ∧
      ∀ l : loc, l ≠ this → heap w' !! l = heap w !! l.
Proof.
  induction ss as [|s ss IH]; intros this w p E.
  - exists w, p. unfold Setter.refusals. simpl. repeat split; [done|lia].
  - rewrite refusals_cons. destruct s as [s|s]; simpl.
    + destruct (IH this
                  (set_heap <[this := OProperties (Setter.written s p)]> w)
                  (Setter.written s p))
        as (w' & p' & Hc & Hh & Ht & Hd & Hf & Hl).
      { simpl. apply lookup_insert_eq. }
      exists w', p'.
      rewrite (bind_normal _ _ _ _ _ (call_written this s w p E)), Hc.
      split; [done|]. split; [done|].
      split; [etrans; [exact Ht|by destruct s]|].
      split; [etrans; [exact Hd|by destruct s]|].
      split; [exact Hf|].
      intros l Hne. rewrite (Hl l Hne). simpl. by rewrite lookup_insert_ne.
    + destruct (call_refusing_alerts this s w) as [msg Hs].
      destruct (IH this (log (AlertFatal msg "Properties") w) p E)
        as (w' & p' & Hc & Hh & Ht & Hd & Hf & Hl).
      exists w', p'. rewrite (bind_normal _ _ _ _ _ Hs), Hc.
      split; [done|]. split; [done|]. split; [done|]. split; [done|].
      split; [|done].
      rewrite Hf. simpl. rewrite fatal_count_log. lia.
Qed.

Lemma FieldProperties_type_derived_fixed_witness :
  heap world2 !! 1%positive = Some (OProperties properties0) ∧
  ∃ (w' : World) (p' : BasicProperties),
    Setter.chain_any 1%positive
      [Setter.Assigning (Setter.SetTag (Some "div"));
       Setter.Refusing (Setter.SetType (DataTypeTok 3));
       Setter.Refusing (Setter.SetDerived true)] world2
      = (Normal 1%positive, w') ∧
    heap w' !! 1%positive = Some (OProperties p') ∧
    attribute AType p' = attribute AType properties0 ∧
    attribute ADerived p' = attribute ADerived properties0 ∧
    fatal_count (trace w') = 2 ∧
    ∀ l : loc, l ≠ 1%positive → heap w' !! l = heap world2 !! l.
Proof.
  assert (H : heap world2 !! 1%positive = Some (OProperties properties0))
    by reflexivity.
  split; [exact H|].
  exact (FieldProperties_type_derived_fixed _ 1%positive world2 properties0 H).
Defined.

(** ** FormsModule: the instance and its settings *)

Lemma new_any (w : World) :
  ∃ w' : World,
    FormsModule.exec FormsModule.New w
      = (Normal (Some (fresh (dom (heap w)))), w') ∧
    instance w' = Some (fresh (dom (heap w))) ∧
    heap w' = <[fresh (dom (heap w)) :=
                  OFormsModule {| root_ := None; showurl_ := true |}]> (heap w) ∧
    trace w' = trace w ++ FormsModule.initialisation.
Proof.
  eexists. split; [reflexivity|]. split; [reflexivity|]. split; [reflexivity|].
  simpl. by rewrite <- !app_assoc.
Qed.

Lemma calls_app (e : Event) (t1 t2 : list Event) :
  FormsModule.calls e (t1 ++ t2) = FormsModule.calls e t1 + FormsModule.calls e t2.
Proof. unfold FormsModule.calls. by rewrite filter_app, length_app. Qed.

Lemma calls_once (e : Event) :
  e ∈ FormsModule.initialisation →
  FormsModule.calls e FormsModule.initialisation = 1.
Proof.
  unfold FormsModule.initialisation. intros He.
  repeat (apply elem_of_cons in He as [->|He]; [reflexivity|]).
  by apply elem_of_nil in He.
Qed.

(** The first call of a process that has no instance yet, be it [get()]
    or [new], constructs one: it returns it, stores it, and runs the
    initialisation. *)
Lemma exec_constructs (c : FormsModule.call) (w : World) :
  (c = FormsModule.New ∨ instance w = None) →
  ∃ (l : loc) (w' : World),
    FormsModule.exec c w = (Normal (Some l), w') ∧
    instance w' = Some l ∧
    trace w' = trace w ++ FormsModule.initialisation.
Proof.
  intros Hc. destruct c.
  - destruct Hc as [|E]; [done|].
    destruct (get_first w E) as (w' & Hg & Hi & Ht). by eexists _, _.
  - destruct (new_any w) as (w' & Hn & Hi & _ & Ht). by eexists _, _.
Qed.

Lemma run_counts (cs : list FormsModule.call) :
  ∀ w : World,
    ∃ (rs : list (option loc)) (w' : World),
      FormsModule.run cs w = (Normal rs, w') ∧
      length rs = length cs ∧
      Forall is_Some rs ∧
      ∀ e : Event, e ∈ FormsModule.initialisation →
        FormsModule.calls e (trace w') =
          FormsModule.calls e (trace w)
          + FormsModule.constructions (FormsModule.has_instance w) cs.
Proof.
  induction cs as [|c cs IH]; intros w.
  - exists [], w. repeat split; [constructor|]. intros e _. simpl. lia.
  - assert (Hstep : ∃ l w1,
      FormsModule.exec c w = (Normal (Some l), w1) ∧
      instance w1 = Some l ∧
      ∀ e, e ∈ FormsModule.initialisation →
        FormsModule.calls e (trace w1) + FormsModule.constructions true cs =
          FormsModule.calls e (trace w)
          + FormsModule.constructions (FormsModule.has_instance w) (c :: cs)).
    { unfold FormsModule.has_instance.
      destruct c, (instance w) as [l|] eqn:E.
      - exists l, w. split; [by apply get_again|]. split; [done|].
        intros e _. simpl. lia.
      - destruct (exec_constructs FormsModule.Get w (or_intror E))
          as (l & w1 & He & Hi & Ht).
        exists l, w1. split; [done|]. split; [done|].
        intros e Hin. rewrite Ht, calls_app, (calls_once e Hin). simpl. lia.
      - destruct (exec_constructs FormsModule.New w (or_introl eq_refl))
          as (l' & w1 & He & Hi & Ht).
        exists l', w1. split; [done|]. split; [done|].
        intros e Hin. rewrite Ht, calls_app, (calls_once e Hin). simpl. lia.
      - destruct (exec_constructs FormsModule.New w (or_introl eq_refl))
          as (l' & w1 & He & Hi & Ht).
        exists l', w1. split; [done|]. split; [done|].
        intros e Hin. rewrite Ht, calls_app, (calls_once e Hin). simpl. lia. }
    destruct Hstep as (l & w1 & He & Hi & Hcount).
    destruct (IH w1) as (rs & w' & Hr & Hlen & Hsome & Hcalls).
    exists (Some l :: rs), w'. split; [|split; [|split]].
    + simpl. rewrite (bind_normal _ _ _ _ _ He).
      by rewrite (bind_normal _ _ _ _ _ Hr).
    + simpl. by rewrite Hlen.
    + constructor; [by eexists|done].
    + intros e Hin. rewrite (Hcalls e Hin).
      unfold FormsModule.has_instance at 1. rewrite Hi.
      by apply Hcount.
Qed.

(** X9.  A process of calls of [FormsModule.get()] and of the
    constructor never throws and returns an instance at every call; each
    step of the initialisation has then run once for every
    [new FormsModule()] and once more when a [get()] found no instance:
    [get()] constructs only then. *)
Theorem FormsModule_run_initialisations (cs : list FormsModule.call)
    (w : World) :
  ∃ (rs : list (option loc)) (w' : World),
    FormsModule.run cs w = (Normal rs, w') ∧
    length rs = length cs ∧
    Forall is_Some rs ∧
    Forall
      (λ e, FormsModule.calls e (trace w') =
              FormsModule.calls e (trace w)
              + FormsModule.constructions (FormsModule.has_instance w) cs)
      FormsModule.initialisation.
Proof.
  destruct (run_counts cs w) as (rs & w' & Hr & Hlen & Hsome & Hcalls).
  exists rs, w'. split; [done|]. split; [done|]. split; [done|].
  by apply Forall_forall.
Qed.

Lemma no_constructions (cs : list FormsModule.call) :
  FormsModule.constructions true cs = 0 →
  cs = replicate (length cs) FormsModule.Get.
Proof.
  induction cs as [|[] cs IH]; simpl; intros H; [done| |done].
  by rewrite <- IH.
Qed.

(** X10.  Started without an instance, a process has the singleton
    property (every [get()] returns the same instance, every step of the
    initialisation runs once) exactly when the constructor runs once in
    it: by its first call, a [get()] or a [new], and never after. *)
Theorem FormsModule_singleton_iff (cs : list FormsModule.call) (w : World) :
  instance w = None →
  FormsModule.singleton w cs ↔ FormsModule.constructions false cs = 1.
Proof.
  intros E. split.
  - intros (l & rs & w' & Hrun & _ & Hcalls).
    destruct (run_counts cs w) as (rs' & w'' & Hr & _ & _ & Hc).
    rewrite Hrun in Hr. injection Hr as <- <-.
    apply Forall_cons_1 in Hcalls as [Hd _].
    specialize (Hc DatesValidate ltac:(by left)).
    unfold FormsModule.has_instance in Hc. rewrite E in Hc. lia.
  - intros Hone. destruct cs as [|c cs]; [done|].
    assert (Hrest : FormsModule.constructions true cs = 0)
      by (destruct c; simpl in Hone; lia).
    assert (Hc : c = FormsModule.New ∨ instance w = None) by by right.
    destruct (exec_constructs c w Hc) as (l & w1 & He & Hi & Ht).
    apply no_constructions in Hrest.
    exists l, (replicate (S (length cs)) (Some l)), w1.
    split; [|split].
    + simpl. rewrite (bind_normal _ _ _ _ _ He). rewrite Hrest.
      rewrite (bind_normal _ _ _ _ _ (run_gets_again _ w1 l Hi)).
      by rewrite length_replicate.
    + rewrite Hrest. simpl. rewrite length_replicate.
      destruct c; rewrite got_gets.
      * constructor; [done|by apply Forall_replicate].
      * by apply Forall_replicate.
    + rewrite Ht. apply calls_initialisation.
Qed.

Lemma FormsModule_singleton_iff_witness :
  instance world0 = None ∧
  (FormsModule.singleton world0
     [FormsModule.New; FormsModule.Get; FormsModule.Get]
   ↔ FormsModule.constructions false
       [FormsModule.New; FormsModule.Get; FormsModule.Get] = 1).
Proof.
  assert (H : instance world0 = None) by reflexivity.
  split; [exact H|].
  exact (FormsModule_singleton_iff
           [FormsModule.New; FormsModule.Get; FormsModule.Get] world0 H).
Defined.

Lemma read_module_heap (w : World) (l : loc) (m : FormsModuleFields) :
  heap w !! l = Some (OFormsModule m) → read_module l w = (Normal m, w).
Proof. intros E. unfold read_module. by rewrite E. Qed.

(** [get()] returns an instance that is in the heap. *)
Lemma get_allocated (w : World) :
  FormsModule.instance_ok w →
  ∃ (l : loc) (m : FormsModuleFields) (w' : World),
    FormsModule.get w = (Normal (Some l), w') ∧
    instance w' = Some l ∧
    heap w' !! l = Some (OFormsModule m).
Proof.
  intros Hok. destruct (instance w) as [l|] eqn:E.
  - destruct (Hok l E) as [m Hm]. exists l, m, w.
    by rewrite (get_again w l E).
  - exists (fresh (dom (heap w))), {| root_ := None; showurl_ := true |}.
    unfold FormsModule.get.
    rewrite (bind_normal _ _ w w None) by (unfold gets; by rewrite E).
    eexists. split; [reflexivity|]. split; [reflexivity|].
    simpl. apply lookup_insert_eq.
Qed.

(** What the accessors read and write, on an instance in the heap. *)
Lemma set_showurl_heap (l : loc) (m : FormsModuleFields) (flag : bool)
    (w : World) :
  heap w !! l = Some (OFormsModule m) →
  FormsModule.set_showurl l flag w =
    (Normal tt,
     set_heap <[l := OFormsModule {| root_ := root_ m; showurl_ := flag |}]> w).
Proof.
  intros E. unfold FormsModule.set_showurl.
  by rewrite (bind_normal _ _ _ _ _ (read_module_heap _ _ _ E)).
Qed.

Lemma setRootElement_heap (l : loc) (m : FormsModuleFields)
    (root : option HTMLElement) (w : World) :
  heap w !! l = Some (OFormsModule m) →
  FormsModule.setRootElement l root w =
    (Normal tt,
     set_heap <[l := OFormsModule {| root_ := root; showurl_ := showurl_ m |}]> w).
Proof.
  intros E. unfold FormsModule.setRootElement.
  by rewrite (bind_normal _ _ _ _ _ (read_module_heap _ _ _ E)).
Qed.

Lemma settings_read {EV : Environment} (l : loc) (m : FormsModuleFields)
    (w : World) :
  heap w !! l = Some (OFormsModule m) →
  (b ← FormsModule.showurl l; r ← FormsModule.getRootElement l; mret (b, r)) w
    = (Normal (showurl_ m, default document_body (root_ m)), w).
Proof.
  intros E. unfold FormsModule.showurl, FormsModule.getRootElement.
  unfold mbind at 1, M_bind at 1.
  rewrite (bind_normal _ _ _ _ _ (read_module_heap _ _ _ E)).
  unfold mret at 1, M_ret at 1.
  unfold mbind at 1, M_bind at 1.
  rewrite (bind_normal _ _ _ _ _ (read_module_heap _ _ _ E)).
  by destruct (root_ m).
Qed.

Lemma constructor_any (w : World) :
  ∃ w' : World,
    FormsModule.constructor w = (Normal (fresh (dom (heap w))), w') ∧
    instance w' = Some (fresh (dom (heap w))) ∧
    heap w' = <[fresh (dom (heap w)) :=
                  OFormsModule {| root_ := None; showurl_ := true |}]> (heap w).
Proof. eexists. split; [reflexivity|]. split; reflexivity. Qed.

(** X11.  After [new FormsModule()], whatever instance there was and
    whatever had been set on it, [FormsModule.get()] returns an object
    that was not in the heap, whose [showurl] is [true] and whose root
    element is [document.body]. *)
Theorem FormsModule_new_resets {EV : Environment} (w : World) :
  ∃ (l : loc) (w' : World),
    (_ ← FormsModule.constructor;
     m ← FormsModule.get;
     this ← deref m;
     s ← (b ← FormsModule.showurl this;
          r ← FormsModule.getRootElement this; mret (b, r));
     mret (this, s)) w
      = (Normal (l, (true, document_body)), w') ∧
    heap w !! l = None.
Proof.
  destruct (constructor_any w) as (w1 & Hc & Hi & Hh).
  exists (fresh (dom (heap w))), w1. split.
  - rewrite (bind_normal _ _ _ _ _ Hc).
    rewrite (bind_normal _ _ _ _ _ (get_again w1 _ Hi)).
    rewrite (bind_normal _ _ w1 w1 (fresh (dom (heap w)))) by reflexivity.
    rewrite (bind_normal _ _ _ _ _
      (settings_read _ {| root_ := None; showurl_ := true |} w1
         ltac:(rewrite Hh; apply lookup_insert_eq))).
    reflexivity.
  - apply not_elem_of_dom, is_fresh.
Qed.

(** X12.  What is set on the instance that [FormsModule.get()] returns
    is read back from the instance a later [get()] returns, which is the
    same one: [showurl] as it was set, and the root element as it was set,
    or [document.body] when it was set to [null]. *)
Theorem FormsModule_settings_persist {EV : Environment} (flag : bool)
    (root : option HTMLElement) (w : World) :
  FormsModule.instance_ok w →
  ∃ (l : loc) (w' : World),
    (m ← FormsModule.get;
     this ← deref m;
     FormsModule.set_showurl this flag;;
     FormsModule.setRootElement this root;;
     m' ← FormsModule.get;
     this' ← deref m';
     s ← (b ← FormsModule.showurl this';
          r ← FormsModule.getRootElement this'; mret (b, r));
     mret (this, this', s)) w
      = (Normal (l, l, (flag, default document_body root)), w').
Proof.
  intros Hok. destruct (get_allocated w Hok) as (l & m & w1 & Hg & Hi & Hh).
  exists l. eexists.
  rewrite (bind_normal _ _ _ _ _ Hg).
  rewrite (bind_normal _ _ w1 w1 l) by reflexivity.
  rewrite (bind_normal _ _ _ _ _ (set_showurl_heap l m flag w1 Hh)).
  assert (Hroot := setRootElement_heap l
                     {| root_ := root_ m; showurl_ := flag |} root
                     (set_heap <[l := OFormsModule
                                        {| root_ := root_ m; showurl_ := flag |}]> w1)).
  rewrite (bind_normal _ _ _ _ _ (Hroot ltac:(simpl; apply lookup_insert_eq))).
  rewrite set_heap_twice.
  rewrite (bind_normal _ _ _ _ _
    (get_again (set_heap <[l := OFormsModule
                                  {| root_ := root; showurl_ := flag |}]> w1)
       l Hi)).
  rewrite (bind_normal _ _ _ _ l) by reflexivity.
  assert (Hread := settings_read l {| root_ := root; showurl_ := flag |}
                     (set_heap <[l := OFormsModule
                                        {| root_ := root; showurl_ := flag |}]> w1)).
  rewrite (bind_normal _ _ _ _ _ (Hread ltac:(simpl; apply lookup_insert_eq))).
  reflexivity.
Qed.

Lemma FormsModule_settings_persist_witness :
  FormsModule.instance_ok world0 ∧
  ∃ (l : loc) (w' : World),
    (m ← FormsModule.get;
     this ← deref m;
     FormsModule.set_showurl this false;;
     FormsModule.setRootElement this None;;
     m' ← FormsModule.get;
     this' ← deref m';
     s ← (b ← FormsModule.showurl this';
          r ← FormsModule.getRootElement this'; mret (b, r));
     mret (this, this', s)) world0
      = (Normal (l, l, (false, HTMLElementTok 0)), w').
Proof.
  assert (H : FormsModule.instance_ok world0) by (intros l Hl; discriminate).
  split; [exact H|].
  exact (FormsModule_settings_persist false None world0 H).
Defined.

(** ** FormsModule: the registry of components *)

Lemma ascii_lower_idempotent : lower_idempotent.
Proof.
  intros s. simpl. induction s as [|c s IH]; [done|]. simpl. rewrite IH.
  f_equal. by destruct c as [[] [] [] [] [] [] [] []].
Qed.

(** [mapComponent] for a class, with the path it settles on. *)
Lemma mapComponent_registers {RT : Runtime} (this : loc) (C : Class)
    (path : jsstring) (w : World) :
  FormsModule.mapComponent this (Some C) path w =
    (Normal tt,
     set_classurl
       <[toLowerCase (class_name C) :=
           toLowerCase (default (class_name C) path)]>
       (set_classmap <[toLowerCase (default (class_name C) path) := C]> w)).
Proof. by destruct path. Qed.

(** X13.  [mapComponent(C, path)] touches two entries of the registry
    and nothing else: [getComponent] answers as before for every path
    that differs from the new one beyond letter case, [getFormPath] as
    before for every class name that differs from that of [C] beyond
    letter case, and the heap, the instance and the trace stay. *)
Theorem FormsModule_mapComponent_frame {RT : Runtime} (this : loc)
    (C : Class) (path : jsstring) (q s : string) (w : World) :
  ¬ FormsModule.same_path (default (class_name C) path) q →
  toLowerCase s ≠ toLowerCase (class_name C) →
  ∃ w' : World,
    FormsModule.mapComponent this (Some C) path w = (Normal tt, w') ∧
    (FormsModule.getComponent this (Some q) w').1
      = (FormsModule.getComponent this (Some q) w).1 ∧
    (FormsModule.getFormPath (Some (inr s)) w').1
      = (FormsModule.getFormPath (Some (inr s)) w).1 ∧
    heap w' = heap w ∧ instance w' = instance w ∧ trace w' = trace w.
Proof.
  intros Hq Hs. eexists. split; [apply mapComponent_registers|].
  split; [|split; [|done]].
  - unfold FormsModule.getComponent. simpl.
    unfold mbind, M_bind, mret, M_ret, gets. simpl.
    by rewrite lookup_insert_ne.
  - unfold FormsModule.getFormPath, gets. simpl.
    by rewrite lookup_insert_ne.
Qed.

Lemma FormsModule_mapComponent_frame_witness :
  ¬ FormsModule.same_path
      (default (class_name {| class_ref := 7; class_name := "OrderList" |})
         (Some "Orders/List")) "customers" ∧
  toLowerCase "Customers"
    ≠ toLowerCase (class_name {| class_ref := 7; class_name := "OrderList" |}) ∧
  ∃ w' : World,
    FormsModule.mapComponent 1%positive
      (Some {| class_ref := 7; class_name := "OrderList" |})
      (Some "Orders/List") world0 = (Normal tt, w') ∧
    (FormsModule.getComponent 1%positive (Some "customers") w').1
      = (FormsModule.getComponent 1%positive (Some "customers") world0).1 ∧
    (FormsModule.getFormPath (Some (inr "Customers")) w').1
      = (FormsModule.getFormPath (Some (inr "Customers")) world0).1 ∧
    heap w' = heap world0 ∧ instance w' = instance world0 ∧
    trace w' = trace world0.
Proof.
  assert (H1 : ¬ FormsModule.same_path
                 (default (class_name {| class_ref := 7; class_name := "OrderList" |})
                    (Some "Orders/List")) "customers") by discriminate.
  assert (H2 : toLowerCase "Customers"
               ≠ toLowerCase
                   (class_name {| class_ref := 7; class_name := "OrderList" |}))
    by discriminate.
  split; [exact H1|]. split; [exact H2|].
  exact (FormsModule_mapComponent_frame 1%positive
           {| class_ref := 7; class_name := "OrderList" |}
           (Some "Orders/List") "customers" "Customers" world0 H1 H2).
Defined.

(** X14.  When [toLowerCase] leaves lower-cased strings as they are,
    the path [getFormPath] gives for a class that has just been mapped,
    with or without a path of its own, is one [getComponent] resolves to
    that class. *)
Theorem FormsModule_path_resolves {RT : Runtime} (this : loc) (C : Class)
    (path : jsstring) (w : World) :
  lower_idempotent →
  ∃ w' : World,
    (FormsModule.mapComponent this (Some C) path;;
     p ← FormsModule.getFormPath (Some (inl C));
     FormsModule.getComponent this p) w = (Normal (Some C), w').
Proof.
  intros Hid. eexists.
  rewrite (bind_normal _ _ _ _ _ (mapComponent_registers this C path w)).
  unfold FormsModule.getFormPath, FormsModule.getComponent, gets.
  unfold mbind, M_bind, mret, M_ret. simpl.
  rewrite lookup_insert_eq. simpl. rewrite Hid.
  by rewrite lookup_insert_eq.
Qed.

Lemma FormsModule_path_resolves_witness :
  lower_idempotent ∧
  ∃ w' : World,
    (FormsModule.mapComponent 1%positive
       (Some {| class_ref := 7; class_name := "OrderList" |}) None;;
     p ← FormsModule.getFormPath
           (Some (inl {| class_ref := 7; class_name := "OrderList" |}));
     FormsModule.getComponent 1%positive p) world0
      = (Normal (Some {| class_ref := 7; class_name := "OrderList" |}), w').
Proof.
  split; [exact ascii_lower_idempotent|].
  exact (FormsModule_path_resolves 1%positive
           {| class_ref := 7; class_name := "OrderList" |} None world0
           ascii_lower_idempotent).
Defined.

(** X15.  [getFormPath] knows a class by its name in lower case only:
    when two classes whose names are equal up to letter case are mapped
    one after the other, it gives the path of the second for both. *)
Theorem FormsModule_getFormPath_name_collision {RT : Runtime} (this : loc)
    (C1 C2 : Class) (p1 p2 : jsstring) (w : World) :
  toLowerCase (class_name C1) = toLowerCase (class_name C2) →
  ∃ w' : World,
    (FormsModule.mapComponent this (Some C1) p1;;
     FormsModule.mapComponent this (Some C2) p2;;
     a ← FormsModule.getFormPath (Some (inl C1));
     b ← FormsModule.getFormPath (Some (inl C2));
     mret (a, b)) w
      = (Normal (Some (toLowerCase (default (class_name C2) p2)),
                 Some (toLowerCase (default (class_name C2) p2))), w').
Proof.
  intros Hn. eexists.
  rewrite (bind_normal _ _ _ _ _ (mapComponent_registers this C1 p1 w)).
  rewrite (bind_normal _ _ _ _ _ (mapComponent_registers this C2 p2 _)).
  unfold FormsModule.getFormPath, gets.
  unfold mbind, M_bind, mret, M_ret. simpl.
  rewrite Hn. by rewrite !lookup_insert_eq.
Qed.

Lemma FormsModule_getFormPath_name_collision_witness :
  toLowerCase (class_name {| class_ref := 7; class_name := "OrderList" |})
    = toLowerCase (class_name {| class_ref := 8; class_name := "orderlist" |}) ∧
  ∃ w' : World,
    (FormsModule.mapComponent 1%positive
       (Some {| class_ref := 7; class_name := "OrderList" |}) (Some "Orders/List");;
     FormsModule.mapComponent 1%positive
       (Some {| class_ref := 8; class_name := "orderlist" |}) (Some "Legacy");;
     a ← FormsModule.getFormPath
           (Some (inl {| class_ref := 7; class_name := "OrderList" |}));
     b ← FormsModule.getFormPath
           (Some (inl {| class_ref := 8; class_name := "orderlist" |}));
     mret (a, b)) world0
      = (Normal (Some "legacy", Some "legacy"), w').
Proof.
  assert (H : toLowerCase
                (class_name {| class_ref := 7; class_name := "OrderList" |})
              = toLowerCase
                  (class_name {| class_ref := 8; class_name := "orderlist" |}))
    by reflexivity.
  split; [exact H|].
  exact (FormsModule_getFormPath_name_collision 1%positive
           {| class_ref := 7; class_name := "OrderList" |}
           {| class_ref := 8; class_name := "orderlist" |}
           (Some "Orders/List") (Some "Legacy") world0 H).
Defined.

(** X16.  Mapping a second class to a path that a first class has, up to
    letter case, replaces the first: [getComponent] gives the second
    class for the path.  The entry of the first class stays, so that
    [getFormPath] still gives that path for it. *)
Theorem FormsModule_mapComponent_remap {RT : Runtime} (this : loc)
    (C1 C2 : Class) (p p' : string) (w : World) :
  FormsModule.same_path p p' →
  toLowerCase (class_name C1) ≠ toLowerCase (class_name C2) →
  ∃ w' : World,
    (FormsModule.mapComponent this (Some C1) (Some p);;
     FormsModule.mapComponent this (Some C2) (Some p');;
     c ← FormsModule.getComponent this (Some p);
     a ← FormsModule.getFormPath (Some (inl C1));
     b ← FormsModule.getFormPath (Some (inl C2));
     mret (c, a, b)) w
      = (Normal (Some C2, Some (toLowerCase p), Some (toLowerCase p)), w').
Proof.
  intros Hp Hn. eexists.
  rewrite (bind_normal _ _ _ _ _ (mapComponent_registers this C1 (Some p) w)).
  rewrite (bind_normal _ _ _ _ _ (mapComponent_registers this C2 (Some p') _)).
  unfold FormsModule.getComponent, FormsModule.getFormPath, gets.
  unfold mbind, M_bind, mret, M_ret. simpl.
  unfold FormsModule.same_path in Hp. rewrite <- Hp.
  rewrite lookup_insert_eq.
  rewrite (lookup_insert_ne _ (toLowerCase (class_name C2))) by done.
  by rewrite !lookup_insert_eq.
Qed.

Lemma FormsModule_mapComponent_remap_witness :
  FormsModule.same_path "Orders/List" "ORDERS/list" ∧
  toLowerCase (class_name {| class_ref := 7; class_name := "OrderList" |})
    ≠ toLowerCase (class_name {| class_ref := 8; class_name := "OrderGrid" |}) ∧
  ∃ w' : World,
    (FormsModule.mapComponent 1%positive
       (Some {| class_ref := 7; class_name := "OrderList" |}) (Some "Orders/List");;
     FormsModule.mapComponent 1%positive
       (Some {| class_ref := 8; class_name := "OrderGrid" |}) (Some "ORDERS/list");;
     c ← FormsModule.getComponent 1%positive (Some "Orders/List");
     a ← FormsModule.getFormPath
           (Some (inl {| class_ref := 7; class_name := "OrderList" |}));
     b ← FormsModule.getFormPath
           (Some (inl {| class_ref := 8; class_name := "OrderGrid" |}));
     mret (c, a, b)) world0
      = (Normal (Some {| class_ref := 8; class_name := "OrderGrid" |},
                 Some "orders/list", Some "orders/list"), w').
Proof.
  assert (H1 : FormsModule.same_path "Orders/List" "ORDERS/list")
    by reflexivity.
  assert (H2 : toLowerCase
                 (class_name {| class_ref := 7; class_name := "OrderList" |})
               ≠ toLowerCase
                   (class_name {| class_ref := 8; class_name := "OrderGrid" |}))
    by discriminate.
  split; [exact H1|]. split; [exact H2|].
  exact (FormsModule_mapComponent_remap 1%positive
           {| class_ref := 7; class_name := "OrderList" |}
           {| class_ref := 8; class_name := "OrderGrid" |}
           "Orders/List" "ORDERS/list" world0 H1 H2).
Defined.

Lemma mapComponent_keeps_registry {RT : Runtime} (this : loc)
    (clazz : option Class) (path : jsstring) (w : World) :
  lower_idempotent → FormsModule.registry_ok w →
  ∃ w' : World,
    FormsModule.mapComponent this clazz path w = (Normal tt, w') ∧
    FormsModule.registry_ok w'.
Proof.
  intros Hid Hok. destruct clazz as [C|]; [|by exists w].
  eexists. split; [apply mapComponent_registers|].
  intros name p. simpl.
  destruct (decide (toLowerCase (class_name C) = name)) as [<-|Hne].
  - rewrite lookup_insert_eq. intros [= <-]. split; [apply Hid|].
    rewrite lookup_insert_eq. by eexists.
  - rewrite lookup_insert_ne by done. intros Hp.
    destruct (Hok name p Hp) as [Hl Hs]. split; [done|].
    destruct (decide (toLowerCase (default (class_name C) path) = p)) as [<-|Hp'].
    + rewrite lookup_insert_eq. by eexists.
    + by rewrite lookup_insert_ne.
Qed.

(** X17.  When [toLowerCase] leaves lower-cased strings as they are, any
    sequence of calls of [mapComponent] keeps the registry in order: from
    a registry in which every path that [getFormPath] can give is lower
    case and mapped (an empty one, say), it returns to such a registry,
    and there every path [getFormPath] gives, for a class or for a class
    name, is resolved by [getComponent] to a class. *)
Theorem FormsModule_registry_resolves {RT : Runtime} (this : loc)
    (calls : list (option Class * jsstring)) (w : World) :
  lower_idempotent → FormsModule.registry_ok w →
  ∃ w' : World,
    FormsModule.map_all this calls w = (Normal tt, w') ∧
    FormsModule.registry_ok w' ∧
    ∀ (clazz : Class + string) (p : string),
      FormsModule.getFormPath (Some clazz) w' = (Normal (Some p), w') →
      ∃ C : Class,
        FormsModule.getComponent this (Some p) w' = (Normal (Some C), w').
Proof.
  intros Hid. revert w.
  assert (Hall : ∀ w, FormsModule.registry_ok w →
    ∃ w', FormsModule.map_all this calls w = (Normal tt, w') ∧
          FormsModule.registry_ok w').
  { induction calls as [|[clazz path] calls IH]; intros w Hok.
    - by exists w.
    - destruct (mapComponent_keeps_registry this clazz path w Hid Hok)
        as (w1 & Hm & Hok1).
      destruct (IH w1 Hok1) as (w' & Hr & Hok').
      exists w'. split; [|done]. simpl.
      by rewrite (bind_normal _ _ _ _ _ Hm). }
  intros w Hok. destruct (Hall w Hok) as (w' & Hr & Hok').
  exists w'. split; [done|]. split; [done|].
  intros clazz p Hp. unfold FormsModule.getFormPath, gets in Hp.
  injection Hp as Hp.
  destruct (Hok' _ p Hp) as [Hl [C HC]].
  exists C. unfold FormsModule.getComponent, gets.
  unfold mbind, M_bind, mret, M_ret. simpl. by rewrite Hl, HC.
Qed.

Lemma FormsModule_registry_resolves_witness :
  lower_idempotent ∧ FormsModule.registry_ok world0 ∧
  ∃ w' : World,
    FormsModule.map_all 1%positive
      [(Some {| class_ref := 7; class_name := "OrderList" |}, Some "Orders/List");
       (None, Some "nothing");
       (Some {| class_ref := 8; class_name := "OrderGrid" |}, None)] world0
      = (Normal tt, w') ∧
    FormsModule.registry_ok w' ∧
    ∀ (clazz : Class + string) (p : string),
      FormsModule.getFormPath (Some clazz) w' = (Normal (Some p), w') →
      ∃ C : Class,
        FormsModule.getComponent 1%positive (Some p) w' = (Normal (Some C), w').
Proof.
  assert (H : FormsModule.registry_ok world0) by (intros n p Hp; discriminate).
  split; [exact ascii_lower_idempotent|]. split; [exact H|].
  exact (FormsModule_registry_resolves 1%positive _ world0
           ascii_lower_idempotent H).
Defined.

(** ** FormsModule: opening the form of the URL *)

Lemma getComponent_lookup {RT : Runtime} (this : loc) (q : string)
    (w : World) :
  FormsModule.getComponent this (Some q) w
    = (Normal (classmap w !! toLowerCase q), w).
Proof. reflexivity. Qed.

(** X18.  [OpenURLForm] answers [true] only when it has shown a form:
    the URL has a [form] parameter, [FormBacking] has let that form be
    opened from the URL, [getComponent] had a class for it, the class is a
    [Form], and [FormBacking.showform] has been called for that class;
    the world is the one that call left. *)
Theorem FormsModule_OpenURLForm_only_navigable {RT : Runtime}
    {EV : Environment} (this : loc) (w w' : World) :
  FormsModule.OpenURLForm this w = (Normal true, w') →
  ∃ (form : string) (C : Class) (w1 : World),
    location_form = Some form ∧
    FormsModule.getComponent this (Some form) w = (Normal (Some C), w) ∧
    extends_Form C = true ∧
    FormBacking_getURLNavigable form w = (Normal true, w1) ∧
    (FormBacking_showform (inl C) None None w1).2 = w'.
Proof.
  unfold FormsModule.OpenURLForm.
  destruct location_form as [form|]; [|discriminate].
  rewrite (bind_normal _ _ _ _ _ (getComponent_lookup this form w)).
  unfold mbind at 1, M_bind at 1.
  destruct (FormBacking_getURLNavigable form w) as [[[]| |] w1] eqn:En;
    simpl; try discriminate.
  destruct (classmap w !! toLowerCase form) as [C|] eqn:EC; [|discriminate].
  destruct (extends_Form C) eqn:EF; [|discriminate].
  unfold FormsModule.showform, async, mbind, M_bind.
  destruct (FormBacking_showform (inl C) None None w1) as [[p|e|] w2] eqn:Es;
    simpl; intros [= <-]; exists form, C, w1;
    rewrite getComponent_lookup, EC, Es; done.
Qed.

Lemma FormsModule_OpenURLForm_only_navigable_witness :
  FormsModule.OpenURLForm 1%positive
    (set_classmap
       <["orders/list" := {| class_ref := 7; class_name := "OrderList" |}]>
       world0)
    = (Normal true,
       set_classmap
         <["orders/list" := {| class_ref := 7; class_name := "OrderList" |}]>
         world0) ∧
  ∃ (form : string) (C : Class) (w1 : World),
    location_form = Some form ∧
    FormsModule.getComponent 1%positive (Some form)
      (set_classmap
         <["orders/list" := {| class_ref := 7; class_name := "OrderList" |}]>
         world0)
      = (Normal (Some C),
         set_classmap
           <["orders/list" := {| class_ref := 7; class_name := "OrderList" |}]>
           world0) ∧
    extends_Form C = true ∧
    FormBacking_getURLNavigable form
      (set_classmap
         <["orders/list" := {| class_ref := 7; class_name := "OrderList" |}]>
         world0) = (Normal true, w1) ∧
    (FormBacking_showform (inl C) None None w1).2
      = set_classmap
          <["orders/list" := {| class_ref := 7; class_name := "OrderList" |}]>
          world0.
Proof.
  assert (H : FormsModule.OpenURLForm 1%positive
                (set_classmap
                   <["orders/list" :=
                       {| class_ref := 7; class_name := "OrderList" |}]>
                   world0)
              = (Normal true,
                 set_classmap
                   <["orders/list" :=
                       {| class_ref := 7; class_name := "OrderList" |}]>
                   world0)) by (vm_compute; reflexivity).
  split; [exact H|].
  exact (FormsModule_OpenURLForm_only_navigable 1%positive _ _ H).
Defined.

(** X19.  A form mapped under a path is opened from a URL that names the
    path in any letter case: when the [form] parameter is the path up to
    case, the class is a [Form] and [FormBacking] lets it be opened,
    [OpenURLForm] calls [FormBacking.showform] for the class and answers
    [true].  It answers [true] also when that call throws: [showform] is
    an [async] method, whose promise is not awaited. *)
Theorem FormsModule_OpenURLForm_mapped {RT : Runtime} {EV : Environment}
    (this : loc) (C : Class) (p q : string) (w w2 w3 : World)
    (c : Completion FormPromise) :
  location_form = Some q →
  FormsModule.same_path p q →
  extends_Form C = true →
  FormBacking_getURLNavigable q
    (FormsModule.mapComponent this (Some C) (Some p) w).2 = (Normal true, w2) →
  FormBacking_showform (inl C) None None w2 = (c, w3) →
  c ≠ Stuck →
  (FormsModule.mapComponent this (Some C) (Some p);;
   FormsModule.OpenURLForm this) w = (Normal true, w3).
Proof.
  intros Hq Hp HF Hn Hs Hc.
  rewrite (mapComponent_registers this C (Some p) w) in Hn. simpl in Hn.
  rewrite (bind_normal _ _ _ _ _ (mapComponent_registers this C (Some p) w)).
  unfold FormsModule.OpenURLForm. rewrite Hq.
  rewrite (bind_normal _ _ _ _ _ (getComponent_lookup this q _)).
  rewrite (bind_normal _ _ _ _ _ Hn). simpl.
  unfold FormsModule.same_path in Hp. rewrite <- Hp, lookup_insert_eq, HF.
  unfold FormsModule.showform, async, mbind, M_bind. rewrite Hs.
  by destruct c.
Qed.

(** [hasTransactions] declares its connection optional, and reads
    [conn$] from it all the same: called without one it throws a
    [TypeError], and [FormBacking] is not asked. *)
Lemma hasTransactions_no_connection {RT : Runtime}
    {EV : Environment} (this : loc) (w : World) :
  FormsModule.hasTransactions this None w = (Throw TypeError, w).
Proof. reflexivity. Qed.

Lemma FormsModule_OpenURLForm_mapped_witness :
  location_form = Some "ORDERS/list" ∧
  FormsModule.same_path "Orders/List" "ORDERS/list" ∧
  extends_Form {| class_ref := 7; class_name := "OrderList" |} = true ∧
  FormBacking_getURLNavigable "ORDERS/list"
    (FormsModule.mapComponent 1%positive
       (Some {| class_ref := 7; class_name := "OrderList" |})
       (Some "Orders/List") world0).2
    = (Normal true,
       (FormsModule.mapComponent 1%positive
          (Some {| class_ref := 7; class_name := "OrderList" |})
          (Some "Orders/List") world0).2) ∧
  FormBacking_showform
    (inl {| class_ref := 7; class_name := "OrderList" |}) None None
    (FormsModule.mapComponent 1%positive
       (Some {| class_ref := 7; class_name := "OrderList" |})
       (Some "Orders/List") world0).2
    = (Normal (FormPromiseTok 0),
       (FormsModule.mapComponent 1%positive
          (Some {| class_ref := 7; class_name := "OrderList" |})
          (Some "Orders/List") world0).2) ∧
  Normal (FormPromiseTok 0) ≠ Stuck ∧
  (FormsModule.mapComponent 1%positive
     (Some {| class_ref := 7; class_name := "OrderList" |})
     (Some "Orders/List");;
   FormsModule.OpenURLForm 1%positive) world0
    = (Normal true,
       (FormsModule.mapComponent 1%positive
          (Some {| class_ref := 7; class_name := "OrderList" |})
          (Some "Orders/List") world0).2).
Proof.
  assert (H1 : location_form = Some "ORDERS/list") by reflexivity.
  assert (H2 : FormsModule.same_path "Orders/List" "ORDERS/list")
    by reflexivity.
  assert (H3 : extends_Form {| class_ref := 7; class_name := "OrderList" |}
               = true) by reflexivity.
  assert (H4 : FormBacking_getURLNavigable "ORDERS/list"
                 (FormsModule.mapComponent 1%positive
                    (Some {| class_ref := 7; class_name := "OrderList" |})
                    (Some "Orders/List") world0).2
               = (Normal true,
                  (FormsModule.mapComponent 1%positive
                     (Some {| class_ref := 7; class_name := "OrderList" |})
                     (Some "Orders/List") world0).2)) by reflexivity.
  assert (H5 : FormBacking_showform
                 (inl {| class_ref := 7; class_name := "OrderList" |})
                 None None
                 (FormsModule.mapComponent 1%positive
                    (Some {| class_ref := 7; class_name := "OrderList" |})
                    (Some "Orders/List") world0).2
               = (Normal (FormPromiseTok 0),
                  (FormsModule.mapComponent 1%positive
                     (Some {| class_ref := 7; class_name := "OrderList" |})
                     (Some "Orders/List") world0).2)) by reflexivity.
  assert (H6 : Normal (FormPromiseTok 0) ≠ @Stuck FormPromise) by discriminate.
  split; [exact H1|]. split; [exact H2|]. split; [exact H3|].
  split; [exact H4|]. split; [exact H5|]. split; [exact H6|].
  exact (FormsModule_OpenURLForm_mapped 1%positive
           {| class_ref := 7; class_name := "OrderList" |}
           "Orders/List" "ORDERS/list" world0 _ _ _ H1 H2 H3 H4 H5 H6).
Defined.

(** ** Key: all or nothing *)

(** An array is all strings, or has a first [null]. *)
Lemma strings_or_null (a : list jsstring) :
  (∃ F : list string, a = Some <$> F) ∨
  (∃ (pre : list string) (post : list jsstring),
     a = (Some <$> pre) ++ None :: post).
Proof.
  induction a as [|[s|] a IH].
  - left. by exists [].
  - destruct IH as [[F ->]|(pre & post & ->)].
    + left. by exists (s :: F).
    + right. by exists (s :: pre), post.
  - right. by exists [], a.
Qed.

Lemma constructor_array_outcome {RT : Runtime} (block : Key.BlockArg)
    (l : loc) (a : list jsstring) (w : World) :
  heap w !! l = Some (OArray a) → a ≠ [] →
  (∃ (s : string) (w' : World),
     Key.constructor (Some block) (Some (Key.FieldsArray l)) w =
       (Normal {| Key.name_ := None; Key.block_ := Some s;
                  Key.fields_ := Some l |}, w') ∧
     trace w' = trace w) ∨
  (∃ w' : World,
     Key.constructor (Some block) (Some (Key.FieldsArray l)) w
       = (Throw TypeError, w') ∧
     trace w' = trace w).
Proof.
  intros Hl Ha.
  destruct (Key.block_name block) as [s|] eqn:Hb.
  - destruct (strings_or_null a) as [[F ->]|(pre & post & ->)].
    + left.
      exists (toLowerCase s),
        (set_heap <[l := OArray (Some <$> (toLowerCase <$> F))]> w).
      split; [|done].
      apply (constructor_strings block s l F w Hb Hl). by destruct F.
    + right.
      exists (set_heap
                <[l := OArray ((Some <$> (toLowerCase <$> pre)) ++ None :: post)]>
                w).
      split; [|done].
      apply (constructor_null_element block s l pre post w Hb Hl).
  - right. exists w. split; [|done].
    rewrite (constructor_past_checks _ _ _ _ Hl Ha). by rewrite Hb.
Qed.

(** X20.  A key is set up wholly or not at all.  For any arguments a
    caller can pass, the constructor ends in one of three ways: it returns
    a key whose [block] and [fields] are both [null], after exactly one
    alert; or it returns a key whose [block] and [fields] are both set,
    without an alert; or it throws a [TypeError], without an alert.  The
    [name] of a returned key is [null]. *)
Theorem Key_constructor_all_or_nothing {RT : Runtime}
    (block : option Key.BlockArg) (fields : option Key.FieldsArg)
    (w : World) :
  Key.fields_in_heap w fields →
  ∃ (c : Completion Key.t) (w' : World),
    Key.constructor block fields w = (c, w') ∧
    match c with
    | Normal k =>
        Key.name k = None ∧
        (Key.block k = None ∧ Key.fields k = None ∧
         fatal_count (trace w') = S (fatal_count (trace w))
         ∨
         is_Some (Key.block k) ∧ is_Some (Key.fields k) ∧
         trace w' = trace w)
    | Throw e => e = TypeError ∧ trace w' = trace w
    | Stuck => False
    end.
Proof.
  intros Hf.
  assert (Halert : ∀ msg,
    Key.constructor block fields w =
      (Normal Key.initial, log (AlertFatal msg "Key") w) →
    ∃ c w', Key.constructor block fields w = (c, w') ∧
      match c with
      | Normal k =>
          Key.name k = None ∧
          (Key.block k = None ∧ Key.fields k = None ∧
           fatal_count (trace w') = S (fatal_count (trace w))
           ∨
           is_Some (Key.block k) ∧ is_Some (Key.fields k) ∧
           trace w' = trace w)
      | Throw e => e = TypeError ∧ trace w' = trace w
      | Stuck => False
      end).
  { intros msg E. eexists _, _. split; [exact E|]. split; [done|].
    left. simpl. by rewrite fatal_count_log. }
  assert (Harray : ∀ b l a w0,
    heap w0 !! l = Some (OArray a) → a ≠ [] → trace w0 = trace w →
    Key.constructor block fields w =
      Key.constructor (Some b) (Some (Key.FieldsArray l)) w0 →
    ∃ c w', Key.constructor block fields w = (c, w') ∧
      match c with
      | Normal k =>
          Key.name k = None ∧
          (Key.block k = None ∧ Key.fields k = None ∧
           fatal_count (trace w') = S (fatal_count (trace w))
           ∨
           is_Some (Key.block k) ∧ is_Some (Key.fields k) ∧
           trace w' = trace w)
      | Throw e => e = TypeError ∧ trace w' = trace w
      | Stuck => False
      end).
  { intros b l a w0 Hl Ha Ht E. rewrite E.
    destruct (constructor_array_outcome b l a w0 Hl Ha)
      as [(s & w' & Hc & Ht')|(w' & Hc & Ht')];
      eexists _, _; (split; [exact Hc|]).
    - split; [done|]. right. split; [by eexists|]. split; [by eexists|].
      congruence.
    - split; [done|]. congruence. }
  destruct block as [b|]; [|by eapply Halert, constructor_null_block].
  destruct fields as [[f|l]|]; [| |by eapply Halert, constructor_null_fields].
  - apply (Harray b (fresh (dom (heap w))) [Some f]
             (set_heap <[fresh (dom (heap w)) := OArray [Some f]]> w));
      [simpl; apply lookup_insert_eq|done|done|].
    apply constructor_wraps_string.
  - destruct Hf as [a Hl]. destruct a as [|x a].
    + by eapply Halert, constructor_empty_fields.
    + by apply (Harray b l (x :: a) w).
Qed.

Lemma Key_constructor_all_or_nothing_witness :
  Key.fields_in_heap world_null (Some (Key.FieldsArray 1%positive)) ∧
  ∃ (c : Completion Key.t) (w' : World),
    Key.constructor (Some (Key.BlockString "Orders"))
      (Some (Key.FieldsArray 1%positive)) world_null = (c, w') ∧
    match c with
    | Normal k =>
        Key.name k = None ∧
        (Key.block k = None ∧ Key.fields k = None ∧
         fatal_count (trace w') = S (fatal_count (trace world_null))
         ∨
         is_Some (Key.block k) ∧ is_Some (Key.fields k) ∧
         trace w' = trace world_null)
    | Throw e => e = TypeError ∧ trace w' = trace world_null
    | Stuck => False
    end.
Proof.
  assert (H : Key.fields_in_heap world_null (Some (Key.FieldsArray 1%positive)))
    by (by eexists).
  split; [exact H|].
  exact (Key_constructor_all_or_nothing (Some (Key.BlockString "Orders"))
           (Some (Key.FieldsArray 1%positive)) world_null H).
Defined.
